(** * vf_analysis: the epoch filtering pipeline of [analyze_dlm.py]

    A shallow embedding of [src/vf_analysis/preprocessing/analyze_dlm.py]
    and the properties of its specification.

    Numbers.  The columns of the tables are float64.  A value is modelled
    as an exact rational, one of the two infinities, or NaN; rounding,
    overflow and the sign of zero are not modelled.  Everything that the
    code does with NaN (propagation, NaN-skipping reductions, comparisons
    that are false on NaN) is modelled.

    Errors.  A Python exception is modelled by [Raise]; a function that
    can raise returns a [result].

    Tables.  A DataFrame is a list of rows in row order; every row carries
    its index label.  A Series is a list of (label, value) pairs.  The
    epoch number is an integer key.

    Scope.  The grouper, the smoothing function, the three filters and
    [analyze_dlm] up to the filtered table are modelled; the datetime
    column, the scaling and the fish length estimate are not. *)

From Stdlib Require Import List ZArith QArith Qabs Lia Bool Arith Sorted
  Permutation.
Import ListNotations.

Set Implicit Arguments.

(* ================================================================= *)
(** ** Exceptions *)

Inductive exn : Type := ValueError | IndexError.

Inductive result (A : Type) : Type :=
| Ok (a : A)
| Raise (e : exn).

Arguments Ok {A} a.
Arguments Raise {A} e.

Definition bind {A B : Type} (m : result A) (k : A -> result B) : result B :=
  match m with
  | Ok a => k a
  | Raise e => Raise e
  end.

Notation "x <- m ;; k" := (bind m (fun x => k))
  (at level 61, m at next level, right associativity).

(* ================================================================= *)
(** ** float64 values *)

Module F64.

Inductive f64 : Type :=
| Fin (q : Q)
| PInf
| NInf
| NaN.

Definition isnan (x : f64) : bool :=
  match x with NaN => true | _ => false end.

Definition of_Z (z : Z) : f64 := Fin (inject_Z z).

Definition of_nat (n : nat) : f64 := of_Z (Z.of_nat n).

(** The infinity with the sign given by a comparison against zero;
    NaN for zero itself (0 * inf, 0 / 0). *)
Definition signed_inf (c : comparison) : f64 :=
  match c with Gt => PInf | Lt => NInf | Eq => NaN end.

Definition fneg (x : f64) : f64 :=
  match x with
  | Fin q => Fin (- q)
  | PInf => NInf
  | NInf => PInf
  | NaN => NaN
  end.

Definition fadd (x y : f64) : f64 :=
  match x, y with
  | NaN, _ | _, NaN => NaN
  | Fin a, Fin b => Fin (a + b)
  | PInf, NInf | NInf, PInf => NaN
  | PInf, _ | _, PInf => PInf
  | NInf, _ | _, NInf => NInf
  end.

Definition fsub (x y : f64) : f64 := fadd x (fneg y).

Definition fmul (x y : f64) : f64 :=
  match x, y with
  | NaN, _ | _, NaN => NaN
  | Fin a, Fin b => Fin (a * b)
  | Fin a, PInf | PInf, Fin a => signed_inf (a ?= 0)
  | Fin a, NInf | NInf, Fin a => signed_inf (CompOpp (a ?= 0))
  | PInf, PInf | NInf, NInf => PInf
  | PInf, NInf | NInf, PInf => NInf
  end.

(** numpy's true division: a finite value over zero is an infinity
    (NaN for 0/0), not an exception. *)
Definition fdiv (x y : f64) : f64 :=
  match x, y with
  | NaN, _ | _, NaN => NaN
  | Fin a, Fin b => if Qeq_bool b 0 then signed_inf (a ?= 0) else Fin (a / b)
  | Fin _, PInf | Fin _, NInf => Fin 0
  | PInf, Fin b => if Qle_bool 0 b then PInf else NInf
  | NInf, Fin b => if Qle_bool 0 b then NInf else PInf
  | _, _ => NaN
  end.

Definition fabs (x : f64) : f64 :=
  match x with
  | Fin q => Fin (Qabs q)
  | PInf | NInf => PInf
  | NaN => NaN
  end.

(** [x <= y]; false as soon as one side is NaN. *)
Definition fleb (x y : f64) : bool :=
  match x, y with
  | NaN, _ | _, NaN => false
  | Fin a, Fin b => Qle_bool a b
  | NInf, _ => true
  | _, PInf => true
  | _, _ => false
  end.

(** [x < y]; false as soon as one side is NaN. *)
Definition fltb (x y : f64) : bool :=
  match x, y with
  | NaN, _ | _, NaN => false
  | Fin a, Fin b => negb (Qle_bool b a)
  | PInf, _ => false
  | _, NInf => false
  | _, _ => true
  end.

Definition fgeb (x y : f64) : bool := fleb y x.

(** The larger of two values, neither of them NaN. *)
Definition fmax (x y : f64) : f64 := if fleb x y then y else x.

(** Equality of values: rationals are compared by [Qeq]. *)
Definition feq (x y : f64) : Prop :=
  match x, y with
  | Fin a, Fin b => a == b
  | PInf, PInf | NInf, NInf | NaN, NaN => True
  | _, _ => False
  end.

Definition is_fin (x : f64) : Prop :=
  match x with Fin _ => True | _ => False end.

End F64.

Import F64.

(* ================================================================= *)
(** ** The numpy and pandas operations the code uses *)

(** [np.ones(n, dtype=int)], as the float operand it becomes. *)
Definition np_ones (n : nat) : list f64 := repeat (Fin 1) n.

(** [np.arange(start, stop, step)] for a positive step. *)
Definition np_arange (start stop step : Z) : list Z :=
  map (fun i => (start + step * Z.of_nat i)%Z)
      (seq 0 (Z.to_nat ((stop - start + step - 1) / step))).

(** Sum of the products of two sequences, position by position. *)
Definition dot (xs ys : list f64) : f64 :=
  fold_left (fun acc p => fadd acc (fmul (fst p) (snd p))) (combine xs ys) (Fin 0).

(** [np.convolve(a, v, 'valid')]: the operands are swapped when [v] is the
    longer one, an empty operand raises, and the output has
    [max - min + 1] entries, one per position where the two overlap
    completely. *)
Definition np_convolve_valid (a v : list f64) : result (list f64) :=
  let (a, v) := if length a <? length v then (v, a) else (a, v) in
  match a, v with
  | [], _ => Raise ValueError
  | _, [] => Raise ValueError
  | _, _ =>
      Ok (map (fun j => dot (firstn (length v) (skipn j a)) (rev v))
              (seq 0 (length a - length v + 1)))
  end.

(** numpy's running sum. *)
Fixpoint scan_from (acc : f64) (l : list f64) : list f64 :=
  match l with
  | [] => []
  | x :: t => fadd acc x :: scan_from (fadd acc x) t
  end.

Definition np_cumsum (l : list f64) : list f64 :=
  match l with
  | [] => []
  | x :: t => x :: scan_from x t
  end.

(** [np.cumsum] of a Series is [Series.cumsum], which skips NaN: the
    NaN entries count as 0 in the running sum and are NaN in the output. *)
Definition cumsum_skipna (l : list f64) : list f64 :=
  map (fun p => if isnan (fst p) then NaN else snd p)
      (combine l (np_cumsum (map (fun x => if isnan x then Fin 0 else x) l))).

(** The slice [[::2]]. *)
Fixpoint stride2 {A : Type} (l : list A) : list A :=
  match l with
  | [] => []
  | [x] => [x]
  | x :: _ :: t => x :: stride2 t
  end.

(** A Series divided by an array: position by position when the lengths
    agree, by the single divisor when the array has one entry, and an
    error otherwise. *)
Definition series_div (s : list f64) (r : list Z) : result (list f64) :=
  if length s =? length r then
    Ok (map (fun p => fdiv (fst p) (of_Z (snd p))) (combine s r))
  else
    match r with
    | [d] => Ok (map (fun x => fdiv x (of_Z d)) s)
    | _ => Raise ValueError
    end.

(** [np.nanmax]: the largest value that is not NaN; NaN when every value
    is NaN; an error on an empty array. *)
Definition np_nanmax (l : list f64) : result f64 :=
  match l with
  | [] => Raise ValueError
  | _ =>
      match filter (fun x => negb (isnan x)) l with
      | [] => Ok NaN
      | x :: t => Ok (fold_left fmax t x)
      end
  end.

(** [Series.mean()]: the mean of the values that are not NaN, NaN when
    there are none. *)
Definition series_mean (l : list f64) : f64 :=
  match filter (fun x => negb (isnan x)) l with
  | [] => NaN
  | x :: t => fdiv (fold_left fadd t x) (of_nat (length (x :: t)))
  end.

(** A Series: index labels with their values, in row order. *)
Definition Series : Type := list (Z * f64).

Definition index (s : Series) : list Z := map fst s.
Definition values (s : Series) : list f64 := map snd s.

(** [pd.Series(data=res, index=idx)] raises when the lengths differ. *)
Definition pd_Series (data : list f64) (idx : list Z) : result Series :=
  if length data =? length idx then Ok (combine idx data) else Raise ValueError.

(* ================================================================= *)
(** ** Constants *)

Definition FRAM_RATE : Q := 40.
Definition MIN_DUR : Q := 2.5 * FRAM_RATE.
Definition MAX_FISH : f64 := of_Z 1.
Definition MAX_INST_DISPL : f64 := of_Z 35.
Definition MAX_ANG_VEL : f64 := of_Z 100.
Definition MAX_ANG_ACCEL : f64 := of_Z 32000.
Definition MAX_DELTA_T : f64 := Fin 0.05.
Definition MAX_DIST_TRAVEL : f64 := of_Z 26.
Definition EPOCH_BUF : nat := 2.
Definition SM_WINDOW_FOR_FILTER : nat := 9.
Definition SM_WINDOW_FOR_ANGVEL : nat := 3.

(* ================================================================= *)
(** ** smooth_series_ML *)

(** [a[:WSZ-1]] is the first [WSZ-1] values and [a[:-WSZ:-1]] the last
    [WSZ-1] values, last one first.  [WSZ = 0] never reaches the slices:
    [np.convolve] raises on the empty [np.ones(0)]. *)
Definition smooth_series_ML (a : Series) (WSZ : nat) : result Series :=
  conv <- np_convolve_valid (values a) (np_ones WSZ) ;;
  let out0 := map (fun s => fdiv s (of_nat WSZ)) conv in
  let r := np_arange 1 (Z.of_nat WSZ - 1) 2 in
  start <- series_div (stride2 (cumsum_skipna (firstn (WSZ - 1) (values a)))) r ;;
  stop0 <- series_div (stride2 (cumsum_skipna (firstn (WSZ - 1) (rev (values a))))) r ;;
  let stop := rev stop0 in
  let res := start ++ out0 ++ stop in
  pd_Series res (index a).

(* ================================================================= *)
(** ** Group-wise operations *)

Section GroupBy.

Variable A : Type.
Variable key : A -> Z.

(** The rows of one epoch, in table order. *)
Definition get_group (k : Z) (df : list A) : list A :=
  filter (fun r => (key r =? k)%Z) df.

(** One step of grouping: the row joins the group of its key, and a key
    not seen before opens a new group after the existing ones. *)
Fixpoint add_row (r : A) (gs : list (Z * list A)) : list (Z * list A) :=
  match gs with
  | [] => [(key r, [r])]
  | (k, g) :: rest =>
      if (key r =? k)%Z then (k, g ++ [r]) :: rest
      else (k, g) :: add_row r rest
  end.

(** [df.groupby('epochNum', sort=False)]: the groups with their keys. *)
Definition grp_by_epoch (df : list A) : list (Z * list A) :=
  fold_left (fun gs r => add_row r gs) df [].

Fixpoint lookup_group (k : Z) (gs : list (Z * list A)) : list A :=
  match gs with
  | [] => []
  | (k', g) :: rest => if (k =? k')%Z then g else lookup_group k rest
  end.

(** Evaluate a predicate on every group, in group order; the first
    exception ends the evaluation. *)
Fixpoint eval_groups (pred : list A -> result bool) (gs : list (Z * list A))
  : result (list (Z * bool)) :=
  match gs with
  | [] => Ok []
  | (k, g) :: rest =>
      b <- pred g ;;
      bs <- eval_groups pred rest ;;
      Ok ((k, b) :: bs)
  end.

Fixpoint verdict (k : Z) (bs : list (Z * bool)) : bool :=
  match bs with
  | [] => false
  | (k', b) :: rest => if (k =? k')%Z then b else verdict k rest
  end.

(** [grouped.filter(pred)]: the rows of the groups on which the
    predicate is true, in table order. *)
Definition groupby_filter (pred : list A -> result bool) (df : list A)
  : result (list A) :=
  bs <- eval_groups pred (grp_by_epoch df) ;;
  Ok (filter (fun r => verdict (key r) bs) df).

(** [grouped.cumcount()]: the number of earlier rows of the same group. *)
Fixpoint cumcount_from (seen : list Z) (df : list A) : list nat :=
  match df with
  | [] => []
  | r :: t => count_occ Z.eq_dec seen (key r) :: cumcount_from (key r :: seen) t
  end.

Definition cumcount (df : list A) : list nat := cumcount_from [] df.

(** [grouped.cumcount(ascending=False)]: the number of later rows of the
    same group. *)
Fixpoint cumcount_desc (df : list A) : list nat :=
  match df with
  | [] => []
  | r :: t => count_occ Z.eq_dec (map key t) (key r) :: cumcount_desc t
  end.

(** [df[mask]]. *)
Definition boolean_index (df : list A) (mask : list bool) : list A :=
  map fst (filter snd (combine df mask)).

Fixpoint last_value (k : Z) (seen : list (Z * f64)) : option f64 :=
  match seen with
  | [] => None
  | (k', v) :: rest => if (k =? k')%Z then Some v else last_value k rest
  end.

(** [grouped[col].diff()]: every row minus the previous row of its
    group, NaN for the first row of a group; in table order. *)
Fixpoint groupby_diff_from (col : A -> f64) (seen : list (Z * f64)) (df : list A)
  : list f64 :=
  match df with
  | [] => []
  | r :: t =>
      match last_value (key r) seen with
      | Some p => fsub (col r) p
      | None => NaN
      end :: groupby_diff_from col ((key r, col r) :: seen) t
  end.

Definition groupby_diff (col : A -> f64) (df : list A) : list f64 :=
  groupby_diff_from col [] df.

(** [first] of a group takes the first value that is not NaN. *)
Definition first_valid (l : list f64) : f64 :=
  match filter (fun x => negb (isnan x)) l with
  | [] => NaN
  | x :: _ => x
  end.

(** [grouped[col].transform('first')], in table order. *)
Definition transform_first (col : A -> f64) (df : list A) : list f64 :=
  let gs := grp_by_epoch df in
  map (fun r => first_valid (map col (lookup_group (key r) gs))) df.

End GroupBy.

(** [np.divide(a, b)] on two columns of one length. *)
Definition np_divide (a b : list f64) : list f64 :=
  map (fun p => fdiv (fst p) (snd p)) (combine a b).

(** The series of a Series-valued assignment, aligned on the labels of
    the table: a label the series does not have gets NaN. *)
Fixpoint series_get (l : Z) (s : Series) : f64 :=
  match s with
  | [] => NaN
  | (l', v) :: rest => if (l =? l')%Z then v else series_get l rest
  end.

Definition align (s : Series) (labels : list Z) : list f64 :=
  map (fun l => series_get l s) labels.

(** The middle one of three values, NaN when one of them is NaN. *)
Definition median3 (a b c : f64) : f64 :=
  if isnan a || isnan b || isnan c then NaN
  else
    let lo := if fleb a b then a else b in
    let hi := if fleb a b then b else a in
    fmax lo (if fleb hi c then hi else c).

(** [s.rolling(3, center=True).median()]: a window needs its three
    values, so the two ends are NaN. *)
Definition rolling_median3 (l : list f64) : list f64 :=
  map (fun i =>
         match i with
         | O => NaN
         | S j =>
             match nth_error l j, nth_error l i, nth_error l (S i) with
             | Some a, Some b, Some c => median3 a b c
             | _, _, _ => NaN
             end
         end)
      (seq 0 (length l)).

(** [df.reset_index()]: the rows get the labels 0, 1, 2, ... *)
Definition fresh_labels {A : Type} (df : list A) : list Z :=
  map Z.of_nat (seq 0 (length df)).

(* ================================================================= *)
(** ** The tables *)

(** The raw table of one recording. *)
Module Raw.
Record row : Type := {
  label : Z;
  epochNum : Z;
  time : f64;
  absx : f64;
  absy : f64;
  absHeadx : f64;
  absHeady : f64;
  ang : f64;
  fishNum : f64;
  fishLen : f64
}.
End Raw.

(** [ana] after the centered coordinates are joined ([absTime], a
    datetime, is left out). *)
Module Ana.
Record row : Type := {
  label : Z;
  oriIndex : Z;
  epochNum : Z;
  ang : f64;
  absy : f64;
  deltaT : f64;
  x : f64;
  y : f64;
  headx : f64;
  heady : f64;
  centeredAng : f64
}.
End Ana.

(** [ana_f] after the two [assign] calls. *)
Module Kin.
Record row : Type := {
  ana : Ana.row;
  xvel : f64;
  yvel : f64;
  dist : f64;
  displ : f64;
  angVel : f64;
  angVelSmoothed : f64;
  angAccel : f64
}.
Definition label (r : row) : Z := Ana.label (ana r).
Definition epochNum (r : row) : Z := Ana.epochNum (ana r).
Definition deltaT (r : row) : f64 := Ana.deltaT (ana r).
End Kin.

(* ================================================================= *)
(** ** raw_filter *)

(** The trim step: [df[(cumcount(ascending=False) >= EPOCH_BUF)
    & (cumcount() >= EPOCH_BUF)]]. *)
Definition del_buf (df : list Raw.row) : list Raw.row :=
  boolean_index df
    (map (fun p => andb (EPOCH_BUF <=? fst p) (EPOCH_BUF <=? snd p))
         (combine (cumcount_desc Raw.epochNum df) (cumcount Raw.epochNum df))).

(** [len(g) >= MIN_DUR and np.nanmax(g['fishNum'].values) < MAX_FISH]. *)
Definition dur_fish_pred (g : list Raw.row) : result bool :=
  if Qle_bool MIN_DUR (inject_Z (Z.of_nat (length g))) then
    m <- np_nanmax (map Raw.fishNum g) ;;
    Ok (fltb m MAX_FISH)
  else Ok false.

Definition dur_fish_filter (df : list Raw.row) : result (list Raw.row) :=
  groupby_filter Raw.epochNum dur_fish_pred df.

Definition raw_filter (df : list Raw.row) : result (list Raw.row) :=
  dur_fish_filter (del_buf df).

(* ================================================================= *)
(** ** dur_y_x_filter *)

(** [np.nanmax(g['deltaT'].values) <= MAX_DELTA_T]. *)
Definition gap_pred (g : list Ana.row) : result bool :=
  m <- np_nanmax (map Ana.deltaT g) ;;
  Ok (fleb m MAX_DELTA_T).

(** [((g['headx'].mean() - g['x'].mean()) * g.tail(1)['x'].values)[0] >= 0]. *)
Definition direction_pred (g : list Ana.row) : result bool :=
  match rev g with
  | [] => Raise IndexError
  | l :: _ =>
      Ok (fgeb (fmul (fsub (series_mean (map Ana.headx g))
                           (series_mean (map Ana.x g)))
                     (Ana.x l))
               (Fin 0))
  end.

Definition direction_filter (f1 : list Ana.row) : result (list Ana.row) :=
  groupby_filter Ana.epochNum direction_pred f1.

Definition dur_y_x_filter (df : list Ana.row) : result (list Ana.row) :=
  f1 <- groupby_filter Ana.epochNum gap_pred df ;;
  direction_filter f1.

(* ================================================================= *)
(** ** displ_dist_vel_filter *)

(** [np.nanmax(np.absolute(displ)) <= MAX_INST_DISPL and
    np.nanmax(np.abs(dist - dist.rolling(3, center=True).median()))
    < MAX_DIST_TRAVEL]. *)
Definition displ_dist_pred (g : list Kin.row) : result bool :=
  m1 <- np_nanmax (map fabs (map Kin.displ g)) ;;
  if fleb m1 MAX_INST_DISPL then
    let d := map Kin.dist g in
    m2 <- np_nanmax (map (fun p => fabs (fsub (fst p) (snd p)))
                         (combine d (rolling_median3 d))) ;;
    Ok (fltb m2 MAX_DIST_TRAVEL)
  else Ok false.

(** [g.loc[1:, 'angVel']]: a slice by LABEL.  The labels of a group
    increase along the rows, so the slice holds the rows whose label is
    at least 1. *)
Definition loc_from_1_angVel (g : list Kin.row) : Series :=
  map (fun r => (Kin.label r, Kin.angVel r))
      (filter (fun r => (1 <=? Kin.label r)%Z) g).

(** [np.nanmax(np.abs(smooth_series_ML(g.loc[1:,'angVel'],
    SM_WINDOW_FOR_FILTER).values)) <= MAX_ANG_VEL]. *)
Definition ang_vel_pred (g : list Kin.row) : result bool :=
  s <- smooth_series_ML (loc_from_1_angVel g) SM_WINDOW_FOR_FILTER ;;
  m <- np_nanmax (map fabs (values s)) ;;
  Ok (fleb m MAX_ANG_VEL).

(** [np.nanmax(np.abs(g['angAccel'].values)) <= MAX_ANG_ACCEL]. *)
Definition ang_accel_pred (g : list Kin.row) : result bool :=
  m <- np_nanmax (map fabs (map Kin.angAccel g)) ;;
  Ok (fleb m MAX_ANG_ACCEL).

Definition displ_dist_vel_filter (df : list Kin.row) : result (list Kin.row) :=
  f1 <- groupby_filter Kin.epochNum displ_dist_pred df ;;
  f2 <- groupby_filter Kin.epochNum ang_vel_pred f1 ;;
  groupby_filter Kin.epochNum ang_accel_pred f2.

(* ================================================================= *)
(** ** analyze_dlm, up to the table of the filtered epochs *)

Section AnalyzeDlm.

(** [np.linalg.norm] of a pair: a square root, which the rationals do
    not have.  The pipeline is parametric in it. *)
Variable norm2 : f64 -> f64 -> f64.

(** [raw_filter(raw).reset_index().rename(columns={'index':'oriIndex'})]:
    a row of [raw_truncate] is a fresh label with the raw row, whose
    old label is the column [oriIndex]. *)
Definition raw_truncate (raw : list Raw.row) : result (list (Z * Raw.row)) :=
  f <- raw_filter raw ;;
  Ok (combine (fresh_labels f) f).

Definition rt_epochNum (p : Z * Raw.row) : Z := Raw.epochNum (snd p).

(** One column of [raw_truncate[cols].values
    - grp_by_epoch(raw_truncate)[cols].transform('first').values]. *)
Definition centered (col : Raw.row -> f64) (rt : list (Z * Raw.row)) : list f64 :=
  map (fun p => fsub (fst p) (snd p))
      (combine (map (fun p => col (snd p)) rt)
               (transform_first rt_epochNum (fun p => col (snd p)) rt)).

(** [ana]: the transferred columns, [deltaT], and the joined centered
    coordinates. *)
Definition ana_table (rt : list (Z * Raw.row)) : list Ana.row :=
  let deltaT := groupby_diff rt_epochNum (fun p => Raw.time (snd p)) rt in
  map (fun p =>
         match p with
         | (lr, (dt, (cx, (cy, (chx, (chy, ca)))))) =>
             {| Ana.label := fst lr;
                Ana.oriIndex := Raw.label (snd lr);
                Ana.epochNum := Raw.epochNum (snd lr);
                Ana.ang := Raw.ang (snd lr);
                Ana.absy := Raw.absy (snd lr);
                Ana.deltaT := dt;
                Ana.x := cx;
                Ana.y := cy;
                Ana.headx := chx;
                Ana.heady := chy;
                Ana.centeredAng := ca |}
         end)
      (combine rt
         (combine deltaT
            (combine (centered Raw.absx rt)
               (combine (centered Raw.absy rt)
                  (combine (centered Raw.absHeadx rt)
                     (combine (centered Raw.absHeady rt)
                              (centered Raw.ang rt))))))).

(** The table between the two [assign] calls, as far as the second one
    reads it: the rows of [ana_f] with their [angVel]. *)
Definition av_epochNum (p : Ana.row * f64) : Z := Ana.epochNum (fst p).

(** [smooth_series_ML(g.tail(len(g)-1)['angVel'], SM_WINDOW_FOR_ANGVEL)]. *)
Definition smoothed_of_group (g : list (Ana.row * f64)) : result Series :=
  smooth_series_ML (map (fun p => (Ana.label (fst p), snd p)) (skipn 1 g))
                   SM_WINDOW_FOR_ANGVEL.

Fixpoint smoothed_groups (gs : list (Z * list (Ana.row * f64)))
  : result (list Series) :=
  match gs with
  | [] => Ok []
  | (_, g) :: rest =>
      s <- smoothed_of_group g ;;
      ss <- smoothed_groups rest ;;
      Ok (s :: ss)
  end.

(** [pd.concat] raises when there is nothing to concatenate. *)
Definition pd_concat (ss : list Series) : result Series :=
  match ss with
  | [] => Raise ValueError
  | _ => Ok (concat ss)
  end.

(** The column [displ] of the first [assign]:
    [ana_f.groupby('epochNum', as_index=False, sort=False).apply(lambda g:
    pd.Series(norm(g[['x','y']]), index=g.index).diff())
    .reset_index(level=0, drop=True)].
    Per epoch, the difference of the norm of (x, y).  With two epochs or
    more the results of [apply] have different indexes, they are put one
    after the other, and the series is aligned on the labels of the
    table.  With one epoch, or none, the results all have the same index,
    [apply] returns a table with one row per epoch and one column per
    label, and its assignment to the one column [displ] raises. *)
Definition displ_column (ana_f : list Ana.row) : result (list f64) :=
  match grp_by_epoch Ana.epochNum ana_f with
  | [] | [_] => Raise ValueError
  | _ :: _ :: _ =>
      Ok (groupby_diff Ana.epochNum (fun r => norm2 (Ana.x r) (Ana.y r)) ana_f)
  end.

(** The two [assign] calls of the second kinematics stage. *)
Definition kinematics2 (ana_f : list Ana.row) : result (list Kin.row) :=
  let dT := map Ana.deltaT ana_f in
  let dx := groupby_diff Ana.epochNum Ana.x ana_f in
  let dy := groupby_diff Ana.epochNum Ana.y ana_f in
  let xvel := np_divide dx dT in
  let yvel := np_divide dy dT in
  let dist := map (fun p => norm2 (fst p) (snd p)) (combine dx dy) in
  displ <- displ_column ana_f ;;
  let angVel := np_divide (groupby_diff Ana.epochNum Ana.ang ana_f) dT in
  let t := combine ana_f angVel in
  ss <- smoothed_groups (grp_by_epoch av_epochNum t) ;;
  sm <- pd_concat ss ;;
  let angVelSmoothed := align sm (map Ana.label ana_f) in
  let angAccel := np_divide (groupby_diff av_epochNum snd t) dT in
  Ok (map (fun p =>
             match p with
             | (r, (vx, (vy, (ds, (dp, (av, (avs, aa))))))) =>
                 {| Kin.ana := r; Kin.xvel := vx; Kin.yvel := vy;
                    Kin.dist := ds; Kin.displ := dp; Kin.angVel := av;
                    Kin.angVelSmoothed := avs; Kin.angAccel := aa |}
             end)
          (combine ana_f
             (combine xvel
                (combine yvel
                   (combine dist
                      (combine displ
                         (combine angVel
                            (combine angVelSmoothed angAccel)))))))).

(** [analyze_dlm] up to [displ_dist_vel_filter(ana_f)]; the final
    [reset_index(drop=True)], the scaling and the fish length do not
    change which rows survive. *)
Definition analyze_dlm_filtered (raw : list Raw.row) : result (list Kin.row) :=
  rt <- raw_truncate raw ;;
  ana_f <- dur_y_x_filter (ana_table rt) ;;
  kin <- kinematics2 ana_f ;;
  displ_dist_vel_filter kin.

End AnalyzeDlm.

(* ================================================================= *)
(** ** Definitions used to state the properties *)

(** A table obtained from another one by deleting rows: the rows that
    remain are the same rows, in the same order. *)
Inductive sublist {A : Type} : list A -> list A -> Prop :=
| sublist_nil : sublist [] []
| sublist_skip x l1 l2 : sublist l1 l2 -> sublist l1 (x :: l2)
| sublist_keep x l1 l2 : sublist l1 l2 -> sublist (x :: l1) (x :: l2).

(** The values of a column on the rows of one key, given the column of
    keys and the column of values. *)
Definition select {B : Type} (k : Z) (keys : list Z) (vals : list B) : list B :=
  map snd (filter (fun p => (fst p =? k)%Z) (combine keys vals)).

(** [Series.diff()] of one column on its own: NaN first, then every
    value minus the one before it. *)
Fixpoint diff_from (prev : option f64) (l : list f64) : list f64 :=
  match l with
  | [] => []
  | x :: t =>
      match prev with Some p => fsub x p | None => NaN end :: diff_from (Some x) t
  end.

Definition series_diff (l : list f64) : list f64 := diff_from None l.

Section StatementsByGroup.

Variable A : Type.
Variable key : A -> Z.

(** The position of the first row of an epoch in the table. *)
Fixpoint first_row (k : Z) (df : list A) : nat :=
  match df with
  | [] => 0%nat
  | r :: t => if (key r =? k)%Z then 0%nat else S (first_row k t)
  end.

(** The rows kept by [(cumcount(ascending=False) >= b) & (cumcount() >= b)],
    with the keys of the rows before the table given. *)
Definition trim_from (b : nat) (seen : list Z) (df : list A) : list A :=
  boolean_index df
    (map (fun p => andb (b <=? fst p)%nat (b <=? snd p)%nat)
         (combine (cumcount_desc key df) (cumcount_from key seen df))).

End StatementsByGroup.

Definition Qsum (l : list Q) : Q := fold_right Qplus 0%Q l.

(** The mean of a sequence of numbers. *)
Definition Qmean (l : list Q) : Q := (Qsum l / inject_Z (Z.of_nat (length l)))%Q.

(** The series holds, at a position, a number equal to [q]. *)
Definition holds_at (s : Series) (i : nat) (q : Q) : Prop :=
  exists v, nth_error (values s) i = Some (Fin v) /\ v == q.

(** The three parts of the result of [smooth_series_ML] for the odd
    window [2h+1]: the start (the stop is the start of the reversed
    values, reversed) and the middle. *)
Definition start_part (vals : list f64) (h : nat) : list f64 :=
  map (fun p => fdiv (fst p) (of_Z (snd p)))
      (combine (stride2 (cumsum_skipna (firstn (2 * h) vals)))
               (map (fun i => (1 + 2 * Z.of_nat i)%Z) (seq 0 h))).

Definition middle_part (vals : list f64) (h : nat) : list f64 :=
  map (fun j => fdiv (dot (firstn (2 * h + 1) (skipn j vals)) (np_ones (2 * h + 1)))
                     (of_nat (2 * h + 1)))
      (seq 0 (length vals - (2 * h + 1) + 1)).

(** The columns of [centered_coordinates], each with the column of
    [raw_truncate] it is computed from. *)
Definition centered_columns : list ((Ana.row -> f64) * (Raw.row -> f64)) :=
  [(Ana.x, Raw.absx); (Ana.y, Raw.absy); (Ana.headx, Raw.absHeadx);
   (Ana.heady, Raw.absHeady); (Ana.centeredAng, Raw.ang)].

(* ================================================================= *)
(** ** The plausibility predicate as the specification words it *)

(** The angular-velocity predicate with the smoothing applied to the
    angVel of frames 2..end of the epoch: the first frame is excluded by
    its position in the epoch. *)
Definition ang_vel_pred_frames2 (g : list Kin.row) : result bool :=
  s <- smooth_series_ML (map (fun r => (Kin.label r, Kin.angVel r)) (skipn 1 g))
                        SM_WINDOW_FOR_FILTER ;;
  m <- np_nanmax (map fabs (values s)) ;;
  Ok (fleb m MAX_ANG_VEL).

(** The column [angVel] as the first [assign] of the second kinematics
    stage computes it. *)
Definition angVel_column (ana_f : list Ana.row) : list f64 :=
  np_divide (groupby_diff Ana.epochNum Ana.ang ana_f) (map Ana.deltaT ana_f).

(* ================================================================= *)
(** ** Example tables *)

(** On a vector with a zero component this is [np.linalg.norm]; the
    examples move along the x axis only. *)
Definition norm_axis (x y : f64) : f64 := fadd (fabs x) (fabs y).

(** A raw frame of a fish that moves one pixel to the right per frame,
    head one pixel ahead, at 40 frames per second. *)
Definition raw_frame (e : Z) (fn : Q) (a : Q) (i : nat) : Raw.row :=
  {| Raw.label := Z.of_nat i;
     Raw.epochNum := e;
     Raw.time := Fin (inject_Z (Z.of_nat i) * 0.025);
     Raw.absx := Fin (10 + inject_Z (Z.of_nat i));
     Raw.absy := Fin 7;
     Raw.absHeadx := Fin (11 + inject_Z (Z.of_nat i));
     Raw.absHeady := Fin 7;
     Raw.ang := Fin a;
     Raw.fishNum := Fin fn;
     Raw.fishLen := Fin 100 |}.

(** One epoch of 104 frames with one detected subject, [fishNum = 1], in
    every frame. *)
Definition one_fish_epoch : list Raw.row := map (raw_frame 1 1 3) (seq 0 104).

(** Two interleaved epochs, of 6 and of 3 frames. *)
Definition two_epochs : list Raw.row :=
  [raw_frame 5 0 3 0; raw_frame 5 0 3 1; raw_frame 2 0 3 2; raw_frame 5 0 3 3;
   raw_frame 5 0 3 4; raw_frame 2 0 3 5; raw_frame 5 0 3 6; raw_frame 2 0 3 7;
   raw_frame 5 0 3 8].

(** An epoch of 104 frames, [fishNum = 0], with a constant heading. *)
Definition steady_epoch (e : Z) (start : nat) : list Raw.row :=
  map (raw_frame e 0 3) (seq start 104).

(** An epoch of 104 frames, [fishNum = 0], whose heading jumps by 3.75
    between the first and the second frame that the trim leaves (the
    third and the fourth of the epoch): angVel is 150 at the second
    frame and 0 afterwards. *)
Definition jump_epoch (e : Z) (start : nat) : list Raw.row :=
  map (fun i => raw_frame e 0 (if (i - start <=? 2)%nat then 0 else 3.75) i)
      (seq start 104).

(** The jump in the second epoch of the table. *)
Definition raw_jump_second : list Raw.row := steady_epoch 1 0 ++ jump_epoch 2 104.

(** The same two epochs with the jump in the first epoch of the table. *)
Definition raw_jump_first : list Raw.row := jump_epoch 2 0 ++ steady_epoch 1 104.

Definition rows_of {A : Type} (r : result (list A)) : list A :=
  match r with Ok l => l | Raise _ => [] end.

(** The table that reaches the plausibility filter for [raw_jump_first]. *)
Definition kin_jump_first : list Kin.row :=
  rows_of (rt <- raw_truncate raw_jump_first ;;
           ana_f <- dur_y_x_filter (ana_table rt) ;;
           kinematics2 norm_axis ana_f).

(** The table that reaches the plausibility filter for [raw_jump_second]. *)
Definition kin_jump_second : list Kin.row :=
  rows_of (rt <- raw_truncate raw_jump_second ;;
           ana_f <- dur_y_x_filter (ana_table rt) ;;
           kinematics2 norm_axis ana_f).

(** An epoch of 104 frames, [fishNum = 0], for which the tracker has no
    x position in the first frame that the trim leaves (the third of the
    epoch). *)
Definition nan_first_epoch (e : Z) (start : nat) : list Raw.row :=
  map (fun i =>
         let r := raw_frame e 0 3 i in
         if (i - start =? 2)%nat then
           {| Raw.label := Raw.label r; Raw.epochNum := Raw.epochNum r;
              Raw.time := Raw.time r; Raw.absx := NaN; Raw.absy := Raw.absy r;
              Raw.absHeadx := Raw.absHeadx r; Raw.absHeady := Raw.absHeady r;
              Raw.ang := Raw.ang r; Raw.fishNum := Raw.fishNum r;
              Raw.fishLen := Raw.fishLen r |}
         else r)
      (seq start 104).

(** A steady epoch followed by an epoch without x in its first frame. *)
Definition raw_nan_first : list Raw.row := steady_epoch 1 0 ++ nan_first_epoch 2 104.

(** A sequence of three values, shorter than the window of the filter. *)
Definition short_series : Series := [(1, Fin 5); (2, Fin 7); (3, Fin 6)]%Z.

(** An epoch of 12 rows, labels 20..31, in which no angular velocity is
    defined. *)
Definition undefined_angVel_epoch : list Kin.row :=
  map (fun i =>
         {| Kin.ana :=
              {| Ana.label := Z.of_nat i; Ana.oriIndex := Z.of_nat i;
                 Ana.epochNum := 4; Ana.ang := NaN; Ana.absy := Fin 7;
                 Ana.deltaT := Fin 0.025; Ana.x := Fin 0; Ana.y := Fin 0;
                 Ana.headx := Fin 0; Ana.heady := Fin 0;
                 Ana.centeredAng := NaN |};
            Kin.xvel := Fin 0; Kin.yvel := Fin 0; Kin.dist := Fin 0;
            Kin.displ := Fin 0; Kin.angVel := NaN; Kin.angVelSmoothed := NaN;
            Kin.angAccel := NaN |})
      (seq 20 12).

(* ================================================================= *)
(** ** The fish length of the filtered frames *)

(** [raw.loc[labels, 'fishLen'].values]: for every label the values of the
    rows of [raw] that carry it, in the order of the labels; a label
    that no row carries is a KeyError ([None]). *)
Fixpoint loc_fishLen (raw : list Raw.row) (labels : list Z) : option (list f64) :=
  match labels with
  | [] => Some []
  | l :: t =>
      match filter (fun r => (Raw.label r =? l)%Z) raw with
      | [] => None
      | rows =>
          match loc_fishLen raw t with
          | Some vs => Some (map Raw.fishLen rows ++ vs)
          | None => None
          end
      end
  end.

Inductive assigned (A : Type) : Type :=
| Assigned (a : A)
| KeyError
| LengthMismatch.

Arguments Assigned {A} a.
Arguments KeyError {A}.
Arguments LengthMismatch {A}.

(** [ana_ff['fishLen'] = raw.loc[ana_ff['oriIndex'], 'fishLen'].values]:
    the rows with their new column; the assignment raises when the
    number of values is not the number of rows. *)
Definition assign_fishLen (raw : list Raw.row) (ana_ff : list Kin.row)
  : assigned (list (Kin.row * f64)) :=
  match loc_fishLen raw (map (fun r => Ana.oriIndex (Kin.ana r)) ana_ff) with
  | None => KeyError
  | Some vs =>
      if (length vs =? length ana_ff)%nat then Assigned (combine ana_ff vs)
      else LengthMismatch
  end.

(** The raw frame a filtered row comes from. *)
Definition frame_of (row : Kin.row) (fr : Raw.row) : Prop :=
  Raw.label fr = Ana.oriIndex (Kin.ana row)
  /\ Raw.epochNum fr = Kin.epochNum row
  /\ Raw.ang fr = Ana.ang (Kin.ana row)
  /\ Raw.absy fr = Ana.absy (Kin.ana row).

(* ================================================================= *)
(** * Properties *)

Local Open Scope nat_scope.

(** ** Lists *)

#[local] Hint Constructors sublist : core.

Lemma sublist_nil_l {A : Type} (l : list A) : sublist [] l.
Proof. induction l; auto. Qed.

Lemma sublist_refl {A : Type} (l : list A) : sublist l l.
Proof. induction l; auto. Qed.

Lemma sublist_trans {A : Type} (l1 l2 l3 : list A) :
  sublist l1 l2 -> sublist l2 l3 -> sublist l1 l3.
Proof.
  intros H12 H23. revert l1 H12.
  induction H23; intros l0 H12; auto.
  inversion H12; subst; auto.
Qed.

Lemma sublist_filter {A : Type} (f : A -> bool) (l : list A) :
  sublist (filter f l) l.
Proof. induction l as [|x l IH]; simpl; auto. destruct (f x); auto. Qed.

Lemma sublist_In {A : Type} (l1 l2 : list A) (x : A) :
  sublist l1 l2 -> In x l1 -> In x l2.
Proof.
  induction 1; simpl; intros Hin; auto.
  destruct Hin; auto.
Qed.

Lemma map_fst_combine {A B : Type} (l1 : list A) (l2 : list B) :
  length l1 <= length l2 -> map fst (combine l1 l2) = l1.
Proof.
  revert l2. induction l1 as [|x l1 IH]; intros [|y l2]; simpl; intros H; auto.
  - lia.
  - f_equal. apply IH. lia.
Qed.

Lemma map_snd_combine {A B : Type} (l1 : list A) (l2 : list B) :
  length l2 <= length l1 -> map snd (combine l1 l2) = l2.
Proof.
  revert l1. induction l2 as [|y l2 IH]; intros [|x l1]; simpl; intros H; auto.
  - lia.
  - f_equal. apply IH. lia.
Qed.

Lemma select_map {A B : Type} (key : A -> Z) (col : A -> B) (k : Z) (df : list A) :
  select k (map key df) (map col df) = map col (get_group key k df).
Proof.
  unfold select, get_group.
  induction df as [|r df IH]; simpl; auto.
  destruct (key r =? k)%Z; simpl; rewrite IH; auto.
Qed.

(* ================================================================= *)
(** ** Grouping *)

Section GroupByFacts.

Variable A : Type.
Variable key : A -> Z.

Lemma lookup_add_row (k : Z) (r : A) (gs : list (Z * list A)) :
  lookup_group k (add_row key r gs)
  = lookup_group k gs ++ (if (key r =? k)%Z then [r] else []).
Proof.
  induction gs as [|[k' g] gs IH]; simpl.
  - rewrite Z.eqb_sym. destruct (key r =? k)%Z; auto.
  - destruct (key r =? k')%Z eqn:E1; simpl.
    + apply Z.eqb_eq in E1. destruct (k =? k')%Z eqn:E2.
      * apply Z.eqb_eq in E2. subst. rewrite Z.eqb_refl. auto.
      * assert (E3 : (key r =? k)%Z = false).
        { apply Z.eqb_neq. apply Z.eqb_neq in E2. congruence. }
        rewrite E3, app_nil_r. auto.
    + destruct (k =? k')%Z eqn:E2; auto.
      apply Z.eqb_eq in E2. subst. rewrite E1, app_nil_r. auto.
Qed.

Lemma lookup_fold (k : Z) (df : list A) (gs : list (Z * list A)) :
  lookup_group k (fold_left (fun gs r => add_row key r gs) df gs)
  = lookup_group k gs ++ get_group key k df.
Proof.
  revert gs. induction df as [|r df IH]; intros gs; simpl.
  - rewrite app_nil_r. auto.
  - rewrite IH, lookup_add_row, <- app_assoc.
    destruct (key r =? k)%Z; auto.
Qed.

(** The group found under a key holds the rows of that key, in table
    order. *)
Lemma lookup_grp (k : Z) (df : list A) :
  lookup_group k (grp_by_epoch key df) = get_group key k df.
Proof. unfold grp_by_epoch. rewrite lookup_fold. auto. Qed.

Lemma grp_snoc (df : list A) (r : A) :
  grp_by_epoch key (df ++ [r]) = add_row key r (grp_by_epoch key df).
Proof. unfold grp_by_epoch. rewrite fold_left_app. auto. Qed.

Lemma keys_add_row (r : A) (gs : list (Z * list A)) :
  map fst (add_row key r gs)
  = map fst gs ++ (if existsb (Z.eqb (key r)) (map fst gs) then [] else [key r]).
Proof.
  induction gs as [|[k g] gs IH]; simpl; auto.
  destruct (key r =? k)%Z eqn:E; simpl.
  - rewrite app_nil_r. auto.
  - rewrite IH. auto.
Qed.

Lemma existsb_eqb_In (k : Z) (l : list Z) :
  existsb (Z.eqb k) l = true <-> In k l.
Proof.
  rewrite existsb_exists. split.
  - intros [x [Hin E]]. apply Z.eqb_eq in E. subst. auto.
  - intros Hin. exists k. split; auto. apply Z.eqb_refl.
Qed.

Lemma keys_In (df : list A) (k : Z) :
  In k (map fst (grp_by_epoch key df)) <-> In k (map key df).
Proof.
  revert k. induction df as [|r df IH] using rev_ind; intros k; simpl.
  - tauto.
  - rewrite grp_snoc, keys_add_row, map_app, !in_app_iff, IH. simpl.
    destruct (existsb (Z.eqb (key r)) (map fst (grp_by_epoch key df))) eqn:E.
    + apply existsb_eqb_In in E. apply IH in E. simpl.
      split; [tauto|]. intros [H|[H|[]]]; auto. subst. auto.
    + simpl. tauto.
Qed.

Lemma keys_NoDup (df : list A) : NoDup (map fst (grp_by_epoch key df)).
Proof.
  induction df as [|r df IH] using rev_ind; simpl.
  - constructor.
  - rewrite grp_snoc, keys_add_row.
    destruct (existsb (Z.eqb (key r)) (map fst (grp_by_epoch key df))) eqn:E.
    + rewrite app_nil_r. auto.
    + apply NoDup_app; auto.
      * constructor; [intros []|constructor].
      * intros k Hin [Hk|[]]. subst.
        apply existsb_eqb_In in Hin. congruence.
Qed.

Lemma lookup_entry (k : Z) (g : list A) (gs : list (Z * list A)) :
  NoDup (map fst gs) -> In (k, g) gs -> lookup_group k gs = g.
Proof.
  induction gs as [|[k' g'] gs IH]; simpl; intros Hnd Hin; [tauto|].
  inversion Hnd as [|? ? Hnot Hnd']; subst.
  destruct Hin as [Heq|Hin].
  - inversion Heq; subst. rewrite Z.eqb_refl. auto.
  - destruct (k =? k')%Z eqn:E; auto.
    apply Z.eqb_eq in E. subst. exfalso. apply Hnot.
    apply (in_map fst) in Hin. auto.
Qed.

(** Every group of the grouping holds exactly the rows of its key, in
    table order, and is not empty. *)
Lemma grp_entry (df : list A) (k : Z) (g : list A) :
  In (k, g) (grp_by_epoch key df) -> g = get_group key k df /\ g <> [].
Proof.
  intros Hin.
  assert (Hg : g = get_group key k df).
  { rewrite <- lookup_grp. symmetry. apply lookup_entry; auto using keys_NoDup. }
  split; auto.
  apply (in_map fst) in Hin. apply keys_In in Hin. simpl in Hin.
  apply in_map_iff in Hin. destruct Hin as [r [Hk Hr]].
  intros Hnil. subst g.
  assert (Hin' : In r (get_group key k df)).
  { apply filter_In. split; auto. apply Z.eqb_eq. auto. }
  rewrite Hnil in Hin'. inversion Hin'.
Qed.

(** *** Filtering by group *)

Lemma eval_groups_verdict (pred : list A -> result bool)
      (gs : list (Z * list A)) (bs : list (Z * bool)) (k : Z) :
  eval_groups pred gs = Ok bs ->
  In k (map fst gs) ->
  pred (lookup_group k gs) = Ok (verdict k bs).
Proof.
  revert bs. induction gs as [|[k' g] gs IH]; simpl; intros bs Hev Hin; [tauto|].
  destruct (pred g) as [b|e] eqn:Hp; simpl in Hev; [|discriminate].
  destruct (eval_groups pred gs) as [bs'|e] eqn:Hev'; simpl in Hev; [|discriminate].
  inversion Hev; subst. simpl.
  destruct (k =? k')%Z eqn:E; auto.
  apply IH; auto. destruct Hin as [H|H]; auto.
  apply Z.eqb_neq in E. congruence.
Qed.

Lemma eval_groups_total (pred : list A -> result bool) (gs : list (Z * list A)) :
  (forall k g, In (k, g) gs -> exists b, pred g = Ok b) ->
  exists bs, eval_groups pred gs = Ok bs.
Proof.
  induction gs as [|[k g] gs IH]; simpl; intros H.
  - eauto.
  - destruct (H k g) as [b Hb]; auto.
    destruct IH as [bs Hbs]; [intros; eapply H; eauto|].
    rewrite Hb, Hbs. simpl. eauto.
Qed.

Lemma eval_groups_raise (pred : list A -> result bool) (gs : list (Z * list A))
      (k : Z) (g : list A) (e : exn) :
  In (k, g) gs -> pred g = Raise e ->
  exists e', eval_groups pred gs = Raise e'.
Proof.
  induction gs as [|[k' g'] gs IH]; simpl; intros Hin Hp; [tauto|].
  destruct Hin as [Heq|Hin].
  - inversion Heq; subst. rewrite Hp. simpl. eauto.
  - destruct (pred g'); simpl; eauto.
    destruct (IH Hin Hp) as [e' He']. rewrite He'. simpl. eauto.
Qed.

(** What [grouped.filter(pred)] returns: the rows whose own epoch
    satisfies the predicate. *)
Lemma groupby_filter_rows (pred : list A -> result bool) (df out : list A) :
  groupby_filter key pred df = Ok out ->
  exists keep : Z -> bool,
    out = filter (fun r => keep (key r)) df /\
    forall k, In k (map key df) -> pred (get_group key k df) = Ok (keep k).
Proof.
  unfold groupby_filter. intros H.
  destruct (eval_groups pred (grp_by_epoch key df)) as [bs|e] eqn:Hev;
    simpl in H; [|discriminate].
  inversion H; subst. exists (fun k => verdict k bs). split; auto.
  intros k Hk. rewrite <- lookup_grp.
  apply eval_groups_verdict; auto. apply keys_In. auto.
Qed.

Lemma groupby_filter_In (pred : list A -> result bool) (df out : list A) (r : A) :
  groupby_filter key pred df = Ok out ->
  (In r out <-> In r df /\ pred (get_group key (key r) df) = Ok true).
Proof.
  intros H. destruct (groupby_filter_rows _ _ H) as [keep [Hout Hkeep]].
  subst out. rewrite filter_In. split.
  - intros [Hin Hk]. split; auto. rewrite Hkeep, Hk; auto. apply in_map. auto.
  - intros [Hin Hp]. split; auto. rewrite Hkeep in Hp by (apply in_map; auto).
    congruence.
Qed.

Lemma groupby_filter_total (pred : list A -> result bool) (df : list A) :
  (forall k, In k (map key df) -> exists b, pred (get_group key k df) = Ok b) ->
  exists out, groupby_filter key pred df = Ok out.
Proof.
  intros H. unfold groupby_filter.
  destruct (eval_groups_total pred (grp_by_epoch key df)) as [bs Hbs].
  - intros k g Hin. destruct (grp_entry _ _ _ Hin) as [Hg _]. subst g.
    apply H. apply keys_In. apply (in_map fst) in Hin. auto.
  - rewrite Hbs. simpl. eauto.
Qed.

Lemma groupby_filter_raise (pred : list A -> result bool) (df : list A)
      (k : Z) (e : exn) :
  In k (map key df) -> pred (get_group key k df) = Raise e ->
  exists e', groupby_filter key pred df = Raise e'.
Proof.
  intros Hk Hp. unfold groupby_filter.
  apply keys_In in Hk. apply in_map_iff in Hk. destruct Hk as [[k' g] [Hk Hin]].
  simpl in Hk. subst k'.
  destruct (grp_entry _ _ _ Hin) as [Hg _]. subst g.
  destruct (eval_groups_raise pred _ _ _ Hin Hp) as [e' He'].
  rewrite He'. simpl. eauto.
Qed.

Lemma get_group_filter_key (keep : Z -> bool) (k : Z) (df : list A) :
  get_group key k (filter (fun r => keep (key r)) df)
  = if keep k then get_group key k df else [].
Proof.
  unfold get_group. induction df as [|r df IH]; simpl.
  - destruct (keep k); auto.
  - destruct (keep (key r)) eqn:Ek; simpl; destruct (key r =? k)%Z eqn:E; auto.
    + apply Z.eqb_eq in E. subst. rewrite Ek in *. rewrite IH. auto.
    + apply Z.eqb_eq in E. subst. rewrite Ek in *. auto.
Qed.

(** A filter by group keeps an epoch whole or removes it whole. *)
Lemma groupby_filter_whole (pred : list A -> result bool) (df out : list A) (k : Z) :
  groupby_filter key pred df = Ok out ->
  get_group key k out = get_group key k df \/ get_group key k out = [].
Proof.
  intros H. destruct (groupby_filter_rows _ _ H) as [keep [Hout _]].
  subst out. rewrite get_group_filter_key. destruct (keep k); auto.
Qed.

Lemma groupby_filter_sublist (pred : list A -> result bool) (df out : list A) :
  groupby_filter key pred df = Ok out -> sublist out df.
Proof.
  intros H. destruct (groupby_filter_rows _ _ H) as [keep [Hout _]].
  subst out. apply sublist_filter.
Qed.

End GroupByFacts.

(* ================================================================= *)
(** ** Group-wise operations stay inside the epoch *)

Section GroupWise.

Variable A : Type.
Variable key : A -> Z.

Lemma first_row_app_in (k : Z) (df l : list A) :
  In k (map key df) ->
  first_row key k (df ++ l) = first_row key k df /\ first_row key k df < length df.
Proof.
  induction df as [|r df IH]; simpl; intros Hin; [tauto|].
  destruct (key r =? k)%Z eqn:E.
  - split; auto. lia.
  - destruct Hin as [H|H]; [apply Z.eqb_neq in E; congruence|].
    destruct (IH H). split; lia.
Qed.

Lemma first_row_app_notin (k : Z) (df l : list A) :
  ~ In k (map key df) ->
  first_row key k (df ++ l) = length df + first_row key k l.
Proof.
  induction df as [|r df IH]; simpl; intros Hin; auto.
  destruct (key r =? k)%Z eqn:E.
  - apply Z.eqb_eq in E. tauto.
  - rewrite IH; auto.
Qed.

Lemma StronglySorted_snoc (B : Type) (R : B -> B -> Prop) (l : list B) (x : B) :
  StronglySorted R l -> Forall (fun y => R y x) l -> StronglySorted R (l ++ [x]).
Proof.
  induction 1 as [|y l Hss IH Hall]; simpl; intros HF.
  - repeat constructor.
  - inversion HF; subst. constructor; auto.
    apply Forall_app. split; auto.
Qed.

Lemma StronglySorted_ext (B : Type) (R R' : B -> B -> Prop) (l : list B) :
  (forall x y, In x l -> In y l -> R x y -> R' x y) ->
  StronglySorted R l -> StronglySorted R' l.
Proof.
  intros Hext Hss. induction Hss as [|y l Hss IH Hall]; constructor.
  - apply IH. intros; apply Hext; simpl; auto.
  - rewrite Forall_forall in *. intros z Hz.
    apply Hext; simpl; auto.
Qed.

(** The epochs come in the order of their first rows. *)
Lemma keys_first_seen_order (df : list A) :
  StronglySorted (fun k1 k2 => first_row key k1 df < first_row key k2 df)
                 (map fst (grp_by_epoch key df)).
Proof.
  induction df as [|r df IH] using rev_ind; simpl.
  - constructor.
  - rewrite grp_snoc, keys_add_row.
    assert (Hold : StronglySorted
                     (fun k1 k2 => first_row key k1 (df ++ [r]) < first_row key k2 (df ++ [r]))
                     (map fst (grp_by_epoch key df))).
    { eapply StronglySorted_ext; [|exact IH].
      intros k1 k2 H1 H2 Hlt.
      apply (proj1 (keys_In key df k1)) in H1.
      apply (proj1 (keys_In key df k2)) in H2.
      destruct (first_row_app_in k1 df [r] H1) as [E1 _].
      destruct (first_row_app_in k2 df [r] H2) as [E2 _].
      cbv beta in *. lia. }
    destruct (existsb (Z.eqb (key r)) (map fst (grp_by_epoch key df))) eqn:E.
    + rewrite app_nil_r. exact Hold.
    + apply StronglySorted_snoc; auto.
      assert (Hnew : ~ In (key r) (map key df)).
      { intros Hin. apply (proj2 (keys_In key df (key r))) in Hin.
        apply existsb_eqb_In in Hin. congruence. }
      rewrite Forall_forall. intros k Hk. apply (proj1 (keys_In key df k)) in Hk.
      destruct (first_row_app_in k df [r] Hk) as [E1 Hlt].
      rewrite E1, (first_row_app_notin _ _ [r] Hnew). lia.
Qed.

Lemma last_value_cons (k k' : Z) (v : f64) (seen : list (Z * f64)) :
  last_value k ((k', v) :: seen)
  = if (k' =? k)%Z then Some v else last_value k seen.
Proof. simpl. rewrite Z.eqb_sym. auto. Qed.

(** The group-wise difference of a column, read on the rows of one
    epoch, is the difference of that epoch's column on its own. *)
Lemma groupby_diff_from_local (col : A -> f64) (k : Z) (df : list A)
      (seen : list (Z * f64)) :
  select k (map key df) (groupby_diff_from key col seen df)
  = diff_from (last_value k seen) (map col (get_group key k df)).
Proof.
  revert seen. induction df as [|r df IH]; intros seen; auto.
  unfold select in *. cbn [map groupby_diff_from combine filter fst get_group].
  specialize (IH ((key r, col r) :: seen)).
  rewrite last_value_cons in IH.
  destruct (key r =? k)%Z eqn:E; cbn [map snd diff_from].
  - apply Z.eqb_eq in E. subst k. rewrite IH. auto.
  - rewrite IH. auto.
Qed.

Lemma groupby_diff_local (col : A -> f64) (k : Z) (df : list A) :
  select k (map key df) (groupby_diff key col df)
  = series_diff (map col (get_group key k df)).
Proof. apply groupby_diff_from_local. Qed.

Lemma groupby_diff_length (col : A -> f64) (df : list A) :
  length (groupby_diff key col df) = length df.
Proof.
  unfold groupby_diff. generalize (@nil (Z * f64)).
  induction df as [|r df IH]; intros seen; simpl; auto.
Qed.

Lemma count_occ_cons (k k' : Z) (seen : list Z) :
  count_occ Z.eq_dec (k' :: seen) k
  = if (k' =? k)%Z then S (count_occ Z.eq_dec seen k) else count_occ Z.eq_dec seen k.
Proof.
  simpl. destruct (Z.eq_dec k' k) as [e|n].
  - subst. rewrite Z.eqb_refl. auto.
  - apply Z.eqb_neq in n. rewrite n. auto.
Qed.

(** [cumcount] numbers the rows of every epoch from 0. *)
Lemma cumcount_from_local (k : Z) (df : list A) (seen : list Z) :
  select k (map key df) (cumcount_from key seen df)
  = seq (count_occ Z.eq_dec seen k) (length (get_group key k df)).
Proof.
  revert seen. induction df as [|r df IH]; intros seen; auto.
  unfold select in *. cbn [map cumcount_from combine filter fst get_group].
  specialize (IH (key r :: seen)). rewrite count_occ_cons in IH.
  destruct (key r =? k)%Z eqn:E; cbn [map snd length seq].
  - apply Z.eqb_eq in E. subst k. rewrite IH. auto.
  - rewrite IH. auto.
Qed.

Lemma cumcount_local (k : Z) (df : list A) :
  select k (map key df) (cumcount key df)
  = seq 0 (length (get_group key k df)).
Proof. apply cumcount_from_local. Qed.

(** [transform('first')] gives every row the first valid value of its
    own epoch. *)
Lemma transform_first_local (col : A -> f64) (df : list A) :
  transform_first key col df
  = map (fun r => first_valid (map col (get_group key (key r) df))) df.
Proof.
  unfold transform_first. apply map_ext. intros r. rewrite lookup_grp. auto.
Qed.

Lemma count_occ_keys (k : Z) (df : list A) :
  count_occ Z.eq_dec (map key df) k = length (get_group key k df).
Proof.
  induction df as [|r df IH]; auto.
  cbn [map get_group filter]. rewrite count_occ_cons.
  destruct (key r =? k)%Z; simpl; auto.
Qed.

Lemma trim_from_cons (b : nat) (seen : list Z) (r : A) (df : list A) :
  trim_from key b seen (r :: df)
  = (if andb (b <=? length (get_group key (key r) df))
             (b <=? count_occ Z.eq_dec seen (key r))
     then [r] else [])
    ++ trim_from key b (key r :: seen) df.
Proof.
  unfold trim_from, boolean_index. cbn [cumcount_desc cumcount_from combine map filter snd fst].
  rewrite count_occ_keys.
  destruct (andb _ _); auto.
Qed.

Lemma trim_from_group (b : nat) (k : Z) (df : list A) (seen : list Z) :
  get_group key k (trim_from key b seen df)
  = skipn (b - count_occ Z.eq_dec seen k)
          (firstn (length (get_group key k df) - b) (get_group key k df)).
Proof.
  revert seen. induction df as [|r df IH]; intros seen.
  - simpl. rewrite skipn_nil. auto.
  - rewrite trim_from_cons. unfold get_group at 1. rewrite filter_app.
    fold (get_group key k (trim_from key b (key r :: seen) df)).
    rewrite IH, count_occ_cons. cbn [get_group filter].
    destruct (key r =? k)%Z eqn:E.
    + apply Z.eqb_eq in E. subst k.
      fold (get_group key (key r) df).
      set (g := get_group key (key r) df).
      set (p := count_occ Z.eq_dec seen (key r)).
      cbn [length].
      destruct (b <=? length g) eqn:Eg.
      * apply Nat.leb_le in Eg.
        replace (S (length g) - b) with (S (length g - b)) by lia.
        cbn [firstn].
        destruct (b <=? p) eqn:Ep; cbn [andb filter app].
        -- apply Nat.leb_le in Ep. rewrite Z.eqb_refl.
           replace (b - p) with 0 by lia. replace (b - S p) with 0 by lia. auto.
        -- apply Nat.leb_gt in Ep.
           replace (b - p) with (S (b - S p)) by lia. auto.
      * apply Nat.leb_gt in Eg. cbn [andb filter app].
        replace (S (length g) - b) with 0 by lia.
        replace (length g - b) with 0 by lia.
        cbn [firstn]. rewrite !skipn_nil. auto.
    + fold (get_group key k df).
      replace (filter (fun r0 => (key r0 =? k)%Z)
                 (if andb (b <=? length (get_group key (key r) df))
                          (b <=? count_occ Z.eq_dec seen (key r))
                  then [r] else [])) with (@nil A); auto.
      destruct (andb _ _); simpl; auto. rewrite E. auto.
Qed.

Lemma boolean_index_sublist (df : list A) (mask : list bool) :
  sublist (boolean_index df mask) df.
Proof.
  unfold boolean_index. revert mask.
  induction df as [|r df IH]; intros [|m mask]; simpl.
  - constructor.
  - constructor.
  - apply sublist_nil_l.
  - destruct m; simpl; [apply sublist_keep|apply sublist_skip]; apply IH.
Qed.

End GroupWise.

(* ================================================================= *)
(** ** The smoothing function *)

Section Smoothing.

Lemma stride2_length (A : Type) (l : list A) :
  length (stride2 l) = Nat.div2 (S (length l))
  /\ forall x, length (stride2 (x :: l)) = Nat.div2 (S (S (length l))).
Proof.
  induction l as [|y l [IH1 IH2]]; simpl; auto.
  split.
  - apply IH2.
  - intros x. simpl in *. rewrite IH1. auto.
Qed.

Lemma stride2_length_div (A : Type) (l : list A) :
  length (stride2 l) = (length l + 1) / 2.
Proof.
  destruct (stride2_length l) as [H _]. rewrite H, Nat.div2_div.
  f_equal. lia.
Qed.

Lemma stride2_nth (A : Type) (j : nat) (l : list A) :
  nth_error (stride2 l) j = nth_error l (2 * j).
Proof.
  revert l. induction j as [|j IH]; intros l.
  - destruct l as [|x [|y t]]; auto.
  - destruct l as [|x [|y t]]; auto.
    + simpl. destruct j; auto.
    + replace (2 * S j) with (S (S (2 * j))) by lia.
      cbn [stride2 nth_error]. apply IH.
Qed.

Lemma scan_from_length (acc : f64) (l : list f64) :
  length (scan_from acc l) = length l.
Proof. revert acc. induction l; intros; simpl; auto. Qed.

Lemma np_cumsum_length (l : list f64) : length (np_cumsum l) = length l.
Proof. destruct l; simpl; auto. rewrite scan_from_length. auto. Qed.

Lemma cumsum_skipna_length (l : list f64) : length (cumsum_skipna l) = length l.
Proof.
  unfold cumsum_skipna.
  rewrite length_map, length_combine, np_cumsum_length, length_map. lia.
Qed.

Lemma series_div_length (s : list f64) (r : list Z) (l : list f64) :
  series_div s r = Ok l -> length l = length s.
Proof.
  unfold series_div. destruct (length s =? length r) eqn:E.
  - apply Nat.eqb_eq in E. intros H. inversion H; subst.
    rewrite length_map, length_combine. lia.
  - destruct r as [|d [|d' r]]; intros H; inversion H; subst.
    apply length_map.
Qed.

Lemma series_div_raise (s : list f64) (r : list Z) (e : exn) :
  series_div s r = Raise e -> e = ValueError.
Proof.
  unfold series_div. destruct (length s =? length r); [discriminate|].
  destruct r as [|d [|d' r]]; intros H; inversion H; auto.
Qed.

Lemma np_arange_odd (h : nat) :
  np_arange 1 (Z.of_nat (2 * h + 1) - 1) 2
  = map (fun i => (1 + 2 * Z.of_nat i)%Z) (seq 0 h).
Proof.
  unfold np_arange. do 2 f_equal.
  replace (Z.of_nat (2 * h + 1) - 1 - 1 + 2 - 1)%Z with (Z.of_nat h * 2)%Z by lia.
  rewrite Z.div_mul by lia. apply Nat2Z.id.
Qed.

Lemma np_convolve_ones (vals : list f64) (W : nat) :
  1 <= W -> W <= length vals ->
  np_convolve_valid vals (np_ones W)
  = Ok (map (fun j => dot (firstn W (skipn j vals)) (np_ones W))
            (seq 0 (length vals - W + 1))).
Proof.
  intros H1 H2. unfold np_convolve_valid, np_ones.
  rewrite repeat_length.
  destruct (length vals <? W) eqn:E; [apply Nat.ltb_lt in E; lia|].
  destruct vals as [|x vals]; [simpl in H2; lia|].
  destruct W as [|W]; [lia|].
  cbn [repeat]. rewrite <- (repeat_length (Fin 1) W) at 1 2.
  change (Fin 1 :: repeat (Fin 1) W) with (repeat (Fin 1) (S W)).
  rewrite rev_repeat.
  change (S (length (repeat (Fin 1) W))) with (length (repeat (Fin 1) (S W))).
  rewrite !repeat_length. cbn [length]. rewrite repeat_length. auto.
Qed.

Lemma np_convolve_short (vals : list f64) (W : nat) :
  length vals < W ->
  np_convolve_valid vals (np_ones W) = Raise ValueError
  \/ exists l, np_convolve_valid vals (np_ones W) = Ok l
               /\ length l = W - length vals + 1.
Proof.
  intros H. unfold np_convolve_valid, np_ones. rewrite repeat_length.
  apply Nat.ltb_lt in H. rewrite H. apply Nat.ltb_lt in H.
  destruct W as [|W]; [lia|]. cbn [repeat].
  destruct vals as [|x vals]; auto.
  right. eexists. split; [reflexivity|].
  rewrite length_map, length_seq. cbn [length]. rewrite repeat_length. auto.
Qed.

(** A sequence shorter than the window makes the function raise. *)
Lemma smooth_series_ML_short (a : Series) (W : nat) :
  length a < W -> smooth_series_ML a W = Raise ValueError.
Proof.
  intros H. unfold smooth_series_ML.
  assert (Hn : length (values a) = length a) by apply length_map.
  destruct (@np_convolve_short (values a) W) as [Hc|[l [Hc Hl]]]; [lia| |];
    rewrite Hc; cbn [bind]; auto.
  destruct (series_div _ _) as [start|e] eqn:Hs; cbn [bind];
    [|apply series_div_raise in Hs; subst; auto].
  destruct (series_div (stride2 (cumsum_skipna (firstn (W - 1) (rev (values a))))) _)
    as [stop0|e] eqn:Ht; cbn [bind];
    [|apply series_div_raise in Ht; subst; auto].
  apply series_div_length in Hs, Ht.
  rewrite stride2_length_div, cumsum_skipna_length, length_firstn in Hs, Ht.
  rewrite length_rev in Ht.
  unfold pd_Series, index.
  rewrite !length_app, length_rev, !length_map, Hl, Hs, Ht, Hn.
  replace (Init.Nat.min (W - 1) (length a)) with (length a) by lia.
  destruct (_ =? _) eqn:E; auto.
  apply Nat.eqb_eq in E.
  assert (2 * ((length a + 1) / 2) >= length a).
  { pose proof (Nat.div_mod_eq (length a + 1) 2).
    pose proof (Nat.mod_upper_bound (length a + 1) 2). lia. }
  lia.
Qed.

Lemma start_part_length (vals : list f64) (h : nat) :
  2 * h + 1 <= length vals -> length (start_part vals h) = h.
Proof.
  intros H. unfold start_part.
  rewrite length_map, length_combine, stride2_length_div, cumsum_skipna_length,
    length_firstn, length_map, length_seq.
  replace (Init.Nat.min (2 * h) (length vals)) with (2 * h) by lia.
  replace ((2 * h + 1) / 2) with h; [lia|].
  apply (Nat.div_unique (2 * h + 1) 2 h 1); lia.
Qed.

Lemma smooth_series_ML_odd (a : Series) (h : nat) :
  2 * h + 1 <= length a ->
  smooth_series_ML a (2 * h + 1)
  = Ok (combine (index a)
          (start_part (values a) h ++ middle_part (values a) h
           ++ rev (start_part (rev (values a)) h))).
Proof.
  intros H. unfold smooth_series_ML.
  assert (Hn : length (values a) = length a) by apply length_map.
  rewrite np_convolve_ones by lia. cbn [bind].
  rewrite np_arange_odd.
  replace (2 * h + 1 - 1) with (2 * h) by lia.
  assert (Hdiv : forall vals, 2 * h + 1 <= length vals ->
            series_div (stride2 (cumsum_skipna (firstn (2 * h) vals)))
                       (map (fun i => (1 + 2 * Z.of_nat i)%Z) (seq 0 h))
            = Ok (start_part vals h)).
  { intros vals Hv. unfold series_div.
    rewrite stride2_length_div, cumsum_skipna_length, length_firstn,
      length_map, length_seq.
    replace (Init.Nat.min (2 * h) (length vals)) with (2 * h) by lia.
    replace ((2 * h + 1) / 2) with h;
      [|apply (Nat.div_unique (2 * h + 1) 2 h 1); lia].
    rewrite Nat.eqb_refl. auto. }
  rewrite Hdiv by lia. cbn [bind].
  rewrite Hdiv by (rewrite length_rev; lia). cbn [bind].
  unfold pd_Series.
  rewrite !length_app, length_rev, !start_part_length by (rewrite ?length_rev; lia).
  rewrite map_map. fold (middle_part (values a) h).
  unfold middle_part at 1. rewrite length_map, length_seq.
  unfold index. rewrite length_map, Hn.
  replace (h + (length a - (2 * h + 1) + 1 + h) =? length a) with true
    by (symmetry; apply Nat.eqb_eq; lia).
  auto.
Qed.

End Smoothing.

Section SmoothingValues.

Lemma nth_error_combine (A B : Type) (l1 : list A) (l2 : list B) (i : nat) :
  nth_error (combine l1 l2) i
  = match nth_error l1 i, nth_error l2 i with
    | Some a, Some b => Some (a, b)
    | _, _ => None
    end.
Proof.
  revert l2 i. induction l1 as [|x l1 IH]; intros [|y l2] [|i]; simpl; auto.
  - destruct (nth_error l1 i); auto.
Qed.

Lemma nth_error_lt (A : Type) (l : list A) (i : nat) :
  i < length l -> exists x, nth_error l i = Some x.
Proof.
  intros H. destruct (nth_error l i) eqn:E; eauto.
  apply nth_error_None in E. lia.
Qed.

Lemma fdiv_Fin_Z (q : Q) (z : Z) :
  z <> 0%Z -> fdiv (Fin q) (of_Z z) = Fin (q / inject_Z z).
Proof.
  intros Hz. unfold fdiv, of_Z.
  destruct (Qeq_bool (inject_Z z) 0) eqn:E; auto.
  apply Qeq_bool_iff in E. unfold Qeq in E. simpl in E. lia.
Qed.

Lemma scan_from_Fin_nth (l : list Q) (acc : Q) (i : nat) (v : f64) :
  nth_error (scan_from (Fin acc) (map Fin l)) i = Some v ->
  exists q, v = Fin q /\ q == (acc + Qsum (firstn (S i) l))%Q.
Proof.
  revert acc i. induction l as [|x l IH]; intros acc i H.
  - destruct i; discriminate.
  - cbn [map scan_from fadd] in H. destruct i as [|i].
    + inversion H; subst. exists (acc + x)%Q. split; auto.
      simpl. ring.
    + cbn [nth_error] in H. destruct (IH _ _ H) as [q [Hv Hq]].
      exists q. split; auto. rewrite Hq.
      change (firstn (S (S i)) (x :: l)) with (x :: firstn (S i) l).
      cbn [Qsum fold_right]. fold (Qsum (firstn (S i) l)). ring.
Qed.

Lemma np_cumsum_Fin_nth (l : list Q) (i : nat) (v : f64) :
  nth_error (np_cumsum (map Fin l)) i = Some v ->
  exists q, v = Fin q /\ q == Qsum (firstn (S i) l).
Proof.
  destruct l as [|x l]; [destruct i; discriminate|].
  cbn [map np_cumsum]. destruct i as [|i]; cbn [nth_error]; intros H.
  - inversion H; subst. exists x. split; auto. simpl. ring.
  - destruct (scan_from_Fin_nth _ _ _ H) as [q [Hv Hq]].
    exists q. split; [exact Hv|exact Hq].
Qed.

Lemma unmask_all (l c : list f64) :
  Forall (fun x => isnan x = false) l -> length c = length l ->
  map (fun p => if isnan (fst p) then NaN else snd p) (combine l c) = c.
Proof.
  intros HF. revert c. induction HF as [|x l Hx HF IH]; intros [|y c] Hlen;
    simpl in *; try discriminate; auto.
  rewrite Hx. f_equal. apply IH. lia.
Qed.

(** On numbers the NaN-skipping running sum is the running sum. *)
Lemma cumsum_skipna_Fin (l : list Q) :
  cumsum_skipna (map Fin l) = np_cumsum (map Fin l).
Proof.
  unfold cumsum_skipna.
  replace (map (fun x => if isnan x then Fin 0 else x) (map Fin l)) with (map Fin l)
    by (rewrite map_map; apply map_ext; auto).
  apply unmask_all.
  - rewrite Forall_forall. intros x Hx. apply in_map_iff in Hx.
    destruct Hx as [q [Hq _]]. subst. auto.
  - apply np_cumsum_length.
Qed.

(** The k-th value of the start is the mean of the first 2k-1 numbers
    (here with k = j + 1). *)
Lemma start_part_Fin_nth (qs : list Q) (h j : nat) :
  2 * h + 1 <= length qs -> j < h ->
  exists v, nth_error (start_part (map Fin qs) h) j = Some (Fin v)
            /\ v == Qmean (firstn (2 * j + 1) qs).
Proof.
  intros Hlen Hj. unfold start_part.
  rewrite nth_error_map, nth_error_combine, stride2_nth, nth_error_map,
    nth_error_seq.
  destruct (Nat.ltb_spec j h) as [_|]; [|lia]. cbn [option_map].
  rewrite firstn_map, cumsum_skipna_Fin.
  destruct (@nth_error_lt _ (np_cumsum (map Fin (firstn (2 * h) qs))) (2 * j))
    as [v Hv].
  { rewrite np_cumsum_length, length_map, length_firstn. lia. }
  rewrite Hv. destruct (np_cumsum_Fin_nth _ _ Hv) as [q [Ev Hq]]. subst v.
  cbn [option_map fst snd Nat.add]. rewrite fdiv_Fin_Z by lia.
  eexists. split; [reflexivity|].
  rewrite Hq, firstn_firstn.
  replace (Init.Nat.min (S (2 * j)) (2 * h)) with (2 * j + 1) by lia.
  unfold Qmean. rewrite length_firstn.
  replace (Init.Nat.min (2 * j + 1) (length qs)) with (2 * j + 1) by lia.
  replace (1 + 2 * Z.of_nat j)%Z with (Z.of_nat (2 * j + 1)) by lia.
  reflexivity.
Qed.

Lemma dot_ones_Fin (w : list Q) (m : nat) (acc : Q) :
  length w <= m ->
  exists q,
    fold_left (fun acc p => fadd acc (fmul (fst p) (snd p)))
              (combine (map Fin w) (repeat (Fin 1) m)) (Fin acc) = Fin q
    /\ q == (acc + Qsum w)%Q.
Proof.
  revert m acc. induction w as [|x w IH]; intros m acc Hm.
  - exists acc. split; auto. simpl. ring.
  - destruct m as [|m]; [simpl in Hm; lia|].
    cbn [map repeat combine fold_left fst snd fmul fadd].
    destruct (IH m (acc + x * 1)%Q) as [q [Hf Hq]]; [simpl in Hm; lia|].
    exists q. split; auto. rewrite Hq. cbn [Qsum fold_right].
    fold (Qsum w). ring.
Qed.

(** An interior value is the sum of its window over the window size. *)
Lemma middle_part_Fin_nth (qs : list Q) (h j : nat) :
  j + (2 * h + 1) <= length qs ->
  exists v, nth_error (middle_part (map Fin qs) h) j = Some (Fin v)
            /\ v == (Qsum (firstn (2 * h + 1) (skipn j qs))
                     / inject_Z (Z.of_nat (2 * h + 1)))%Q.
Proof.
  intros Hlen. unfold middle_part.
  rewrite nth_error_map, nth_error_seq, length_map.
  destruct (Nat.ltb_spec j (length qs - (2 * h + 1) + 1)) as [_|]; [|lia].
  cbn [option_map Nat.add].
  rewrite skipn_map, firstn_map. unfold dot, np_ones.
  destruct (@dot_ones_Fin (firstn (2 * h + 1) (skipn j qs)) (2 * h + 1) 0%Q)
    as [q [Hf Hq]].
  { rewrite length_firstn. lia. }
  rewrite Hf. unfold of_nat. rewrite fdiv_Fin_Z by lia.
  eexists. split; [reflexivity|].
  rewrite Hq. apply Qdiv_comp; [ring|reflexivity].
Qed.

Lemma Qsum_app (l1 l2 : list Q) : Qsum (l1 ++ l2) == (Qsum l1 + Qsum l2)%Q.
Proof.
  induction l1 as [|x l1 IH]; simpl.
  - ring.
  - fold (Qsum (l1 ++ l2)). fold (Qsum l1). rewrite IH. ring.
Qed.

Lemma Qsum_rev (l : list Q) : Qsum (rev l) == Qsum l.
Proof.
  induction l as [|x l IH]; simpl; [reflexivity|].
  rewrite Qsum_app, IH. simpl. fold (Qsum l). ring.
Qed.

(** The mean of the first m values of the reversed sequence is the
    mean of the last m values. *)
Lemma Qmean_firstn_rev (l : list Q) (m : nat) :
  m <= length l ->
  Qmean (firstn m (rev l)) == Qmean (skipn (length l - m) l).
Proof.
  intros Hm. rewrite firstn_rev. unfold Qmean.
  rewrite length_rev, Qsum_rev. reflexivity.
Qed.

End SmoothingValues.

(* ================================================================= *)
(** ** The claims *)

(** C1.  For a sequence [a] of numbers with its index and an odd window
    [W <= len(a)], [smooth_series_ML] returns a series with the same
    index and length in which every interior position
    [(W-1)/2 .. len(a)-1-(W-1)/2] holds the sum of the [W] values around
    it divided by [W], the k-th position from the start
    ([k = 1 .. (W-1)/2]) holds the mean of the first [2k-1] values, and
    the k-th position from the end holds the mean of the last [2k-1]
    values. *)
Theorem smooth_series_ML_moving_average (idx : list Z) (qs : list Q) (W : nat) :
  Nat.odd W = true -> W <= length qs -> length idx = length qs ->
  exists res,
    smooth_series_ML (combine idx (map Fin qs)) W = Ok res
    /\ index res = idx
    /\ length (values res) = length qs
    /\ (forall i, (W - 1) / 2 <= i -> i <= length qs - 1 - (W - 1) / 2 ->
          holds_at res i
            (Qsum (firstn W (skipn (i - (W - 1) / 2) qs)) / inject_Z (Z.of_nat W)))
    /\ (forall k, 1 <= k -> k <= (W - 1) / 2 ->
          holds_at res (k - 1) (Qmean (firstn (2 * k - 1) qs)))
    /\ (forall k, 1 <= k -> k <= (W - 1) / 2 ->
          holds_at res (length qs - k)
            (Qmean (skipn (length qs - (2 * k - 1)) qs))).
Proof.
  intros Hodd HW Hidx.
  apply Nat.odd_spec in Hodd. destruct Hodd as [h Hh]. subst W.
  replace ((2 * h + 1 - 1) / 2) with h
    by (apply (Nat.div_unique (2 * h + 1 - 1) 2 h 0); lia).
  set (a := combine idx (map Fin qs)).
  assert (Hvals : values a = map Fin qs).
  { apply map_snd_combine. rewrite length_map. lia. }
  assert (Hind : index a = idx).
  { apply map_fst_combine. rewrite length_map. lia. }
  assert (Hlen : length a = length qs).
  { unfold a. rewrite length_combine, length_map. lia. }
  rewrite smooth_series_ML_odd by lia. rewrite Hvals, Hind.
  set (S1 := start_part (map Fin qs) h).
  set (M := middle_part (map Fin qs) h).
  set (S2 := start_part (rev (map Fin qs)) h).
  assert (L1 : length S1 = h).
  { apply start_part_length. rewrite length_map. lia. }
  assert (L2 : length S2 = h).
  { apply start_part_length. rewrite length_rev, length_map. lia. }
  assert (LM : length M = length qs - (2 * h + 1) + 1).
  { unfold M, middle_part. rewrite length_map, length_seq, length_map. auto. }
  assert (Hres : values (combine idx (S1 ++ M ++ rev S2)) = S1 ++ M ++ rev S2).
  { apply map_snd_combine. rewrite !length_app, length_rev. lia. }
  eexists. split; [reflexivity|]. unfold holds_at. rewrite Hres.
  split; [|split; [|split; [|split]]].
  - apply map_fst_combine. rewrite !length_app, length_rev. lia.
  - rewrite !length_app, length_rev. lia.
  - intros i Hi1 Hi2.
    rewrite nth_error_app2 by lia. rewrite nth_error_app1 by lia.
    rewrite L1. apply middle_part_Fin_nth. lia.
  - intros k Hk1 Hk2. rewrite nth_error_app1 by lia.
    destruct (@start_part_Fin_nth qs h (k - 1)) as [v [Hv Hq]]; try lia.
    exists v. split; auto.
    replace (2 * k - 1) with (2 * (k - 1) + 1) by lia. auto.
  - intros k Hk1 Hk2.
    rewrite nth_error_app2 by lia. rewrite nth_error_app2 by lia.
    rewrite nth_error_rev, L1, LM, L2.
    destruct (Nat.ltb_spec (length qs - k - h - (length qs - (2 * h + 1) + 1)) h)
      as [_|]; [|lia].
    replace (h - S (length qs - k - h - (length qs - (2 * h + 1) + 1)))
      with (k - 1) by lia.
    unfold S2. rewrite <- map_rev.
    destruct (@start_part_Fin_nth (rev qs) h (k - 1)) as [v [Hv Hq]];
      try (rewrite ?length_rev; lia).
    exists v. split; auto.
    rewrite Hq. replace (2 * (k - 1) + 1) with (2 * k - 1) by lia.
    apply Qmean_firstn_rev. lia.
Qed.

Lemma smooth_series_ML_moving_average_witness :
  exists res,
    smooth_series_ML
      (combine [10; 11; 12; 13; 14; 15; 16]%Z (map Fin [3; 1; 4; 1; 5; 9; 2]%Q)) 5
    = Ok res
    /\ holds_at res 3 ((1 + 4 + 1 + 5 + 9) / 5)%Q
    /\ holds_at res 1 ((3 + 1 + 4) / 3)%Q
    /\ holds_at res 6 (2 / 1)%Q.
Proof.
  destruct (@smooth_series_ML_moving_average
              [10; 11; 12; 13; 14; 15; 16]%Z [3; 1; 4; 1; 5; 9; 2]%Q 5)
    as [res [Hres [_ [_ [Hmid [Hstart Hstop]]]]]];
    [reflexivity | simpl; lia | reflexivity |].
  exists res. split; [exact Hres|].
  split; [|split].
  - destruct (Hmid 3) as [v [Hv Hq]]; [simpl; lia | simpl; lia |].
    exists v. split; [exact Hv|]. rewrite Hq. vm_compute. reflexivity.
  - destruct (Hstart 2) as [v [Hv Hq]]; [lia | simpl; lia |].
    exists v. split; [exact Hv|]. rewrite Hq. vm_compute. reflexivity.
  - destruct (Hstop 1) as [v [Hv Hq]]; [lia | simpl; lia |].
    exists v. split; [exact Hv|]. rewrite Hq. vm_compute. reflexivity.
Defined.

(** *** np.nanmax and Series.mean *)

Lemma np_nanmax_total (l : list f64) :
  l <> [] -> exists m, np_nanmax l = Ok m.
Proof.
  destruct l as [|x l]; [tauto|]. intros _. unfold np_nanmax.
  destruct (filter _ _); eauto.
Qed.

Lemma np_nanmax_all_nan (l : list f64) :
  l <> [] -> Forall (fun x => x = NaN) l -> np_nanmax l = Ok NaN.
Proof.
  intros Hne HF. unfold np_nanmax. destruct l as [|x l]; [tauto|].
  replace (filter (fun x => negb (isnan x)) (x :: l)) with (@nil f64); auto.
  symmetry. clear Hne. induction HF as [|y l' Hy HF IH]; auto.
  subst y. simpl. auto.
Qed.

Lemma fleb_refl (x : f64) : isnan x = false -> fleb x x = true.
Proof.
  destruct x; simpl; try discriminate; auto.
  intros _. apply Qle_bool_iff. apply Qle_refl.
Qed.

Lemma fleb_total (x y : f64) :
  isnan x = false -> isnan y = false -> fleb x y = true \/ fleb y x = true.
Proof.
  destruct x as [a| | |], y as [b| | |]; simpl; try discriminate; auto.
  intros _ _. destruct (Qlt_le_dec a b) as [H|H].
  - left. apply Qle_bool_iff. apply Qlt_le_weak. auto.
  - right. apply Qle_bool_iff. auto.
Qed.

Lemma fleb_trans (x y z : f64) :
  fleb x y = true -> fleb y z = true -> fleb x z = true.
Proof.
  destruct x as [a| | |], y as [b| | |], z as [c| | |]; simpl;
    try discriminate; auto.
  rewrite !Qle_bool_iff. apply Qle_trans.
Qed.

Lemma fmax_notnan (x y : f64) :
  isnan x = false -> isnan y = false -> isnan (fmax x y) = false.
Proof. unfold fmax. destruct (fleb x y); auto. Qed.

Lemma fold_fmax_is_max (t : list f64) (x : f64) :
  isnan x = false -> Forall (fun y => isnan y = false) t ->
  let m := fold_left fmax t x in
  isnan m = false /\ In m (x :: t) /\ Forall (fun y => fleb y m = true) (x :: t).
Proof.
  revert x. induction t as [|y t IH]; intros x Hx HF; cbn [fold_left].
  - split; auto. split; [left; auto|]. constructor; auto. apply fleb_refl. auto.
  - inversion HF as [|? ? Hy HF']; subst.
    destruct (IH (fmax x y) (fmax_notnan _ _ Hx Hy) HF') as [Hm [Hin Hall]].
    cbv zeta in *. set (m := fold_left fmax t (fmax x y)) in *.
    inversion Hall as [|? ? Hxy Ht]; subst.
    split; auto. split.
    + destruct Hin as [Hin|Hin]; [|right; right; auto].
      unfold fmax in Hin. destruct (fleb x y); [right; left|left]; auto.
    + assert (Hx' : fleb x (fmax x y) = true /\ fleb y (fmax x y) = true).
      { unfold fmax. destruct (fleb x y) eqn:E.
        - split; auto. apply fleb_refl; auto.
        - split; [apply fleb_refl; auto|].
          destruct (fleb_total x y Hx Hy); congruence. }
      destruct Hx' as [H1 H2].
      constructor; [eapply fleb_trans; eauto|].
      constructor; [eapply fleb_trans; eauto|auto].
  Qed.

(** [np.nanmax] is the maximum of the values that are numbers. *)
Lemma np_nanmax_is_max (l : list f64) (m : f64) :
  np_nanmax l = Ok m -> isnan m = false ->
  In m l /\ forall x, In x l -> isnan x = false -> fleb x m = true.
Proof.
  unfold np_nanmax. destruct l as [|x0 l0]; [discriminate|].
  set (l := x0 :: l0).
  destruct (filter (fun x => negb (isnan x)) l) as [|x t] eqn:E.
  - intros H; inversion H; subst. discriminate.
  - intros H _. inversion H; subst. clear H.
    assert (HF : Forall (fun y => isnan y = false) (x :: t)).
    { rewrite <- E. rewrite Forall_forall. intros y Hy.
      apply filter_In in Hy. destruct Hy as [_ Hy].
      destruct (isnan y); auto; discriminate. }
    inversion HF as [|? ? Hx Ht]; subst.
    destruct (@fold_fmax_is_max t x Hx Ht) as [_ [Hin Hall]].
    split.
    + rewrite <- E in Hin. apply filter_In in Hin. tauto.
    + intros y Hy Hn. rewrite Forall_forall in Hall. apply Hall.
      rewrite <- E. apply filter_In. split; auto. rewrite Hn. auto.
Qed.

Lemma fold_fadd_Fin (t : list Q) (x : Q) :
  exists q, fold_left fadd (map Fin t) (Fin x) = Fin q /\ q == (x + Qsum t)%Q.
Proof.
  revert x. induction t as [|y t IH]; intros x; cbn [map fold_left fadd].
  - exists x. split; auto. simpl. ring.
  - destruct (IH (x + y)%Q) as [q [Hf Hq]]. exists q. split; auto.
    rewrite Hq. cbn [Qsum fold_right]. fold (Qsum t). ring.
Qed.

(** On numbers [Series.mean()] is the mean. *)
Lemma series_mean_Fin (qs : list Q) :
  qs <> [] -> feq (series_mean (map Fin qs)) (Fin (Qmean qs)).
Proof.
  intros Hne. unfold series_mean.
  replace (filter (fun x => negb (isnan x)) (map Fin qs)) with (map Fin qs).
  - destruct qs as [|x t]; [tauto|]. cbn [map].
    destruct (fold_fadd_Fin t x) as [q [Hf Hq]]. rewrite Hf.
    unfold of_nat. rewrite fdiv_Fin_Z by (simpl; lia).
    simpl feq. unfold Qmean. rewrite Hq. rewrite !length_map.
    cbn [Qsum fold_right length]. reflexivity.
  - clear Hne. induction qs as [|x t IH]; simpl; auto. f_equal. auto.
Qed.

Lemma get_group_nonempty (A : Type) (key : A -> Z) (k : Z) (df : list A) :
  In k (map key df) -> get_group key k df <> [].
Proof.
  intros Hin Hnil. apply in_map_iff in Hin. destruct Hin as [r [Hk Hr]].
  assert (H : In r (get_group key k df)).
  { apply filter_In. split; auto. apply Z.eqb_eq. auto. }
  rewrite Hnil in H. inversion H.
Qed.

Lemma get_group_sublist (A : Type) (key : A -> Z) (k : Z) (df : list A) :
  sublist (get_group key k df) df.
Proof. apply sublist_filter. Qed.

Lemma smooth_series_ML_total (a : Series) (h : nat) :
  2 * h + 1 <= length a ->
  exists res, smooth_series_ML a (2 * h + 1) = Ok res
              /\ index res = index a /\ length (values res) = length a.
Proof.
  intros H. rewrite smooth_series_ML_odd by lia.
  assert (Hn : length (values a) = length a) by apply length_map.
  assert (Hi : length (index a) = length a) by apply length_map.
  assert (Hlen : length (start_part (values a) h ++ middle_part (values a) h
                         ++ rev (start_part (rev (values a)) h)) = length a).
  { rewrite !length_app, length_rev, !start_part_length
      by (rewrite ?length_rev; lia).
    unfold middle_part. rewrite length_map, length_seq. lia. }
  eexists. split; [reflexivity|]. split.
  - apply map_fst_combine. lia.
  - unfold values at 1. rewrite map_snd_combine; lia.
Qed.

(** C5.  For every epoch of length L of the input table, the trim step
    of the structural filter keeps exactly the interior frames of the
    epoch: it drops the first EPOCH_BUF and the last EPOCH_BUF frames by
    position within the epoch, so L - 2*EPOCH_BUF frames remain when
    L > 2*EPOCH_BUF and none when L <= 2*EPOCH_BUF. *)
Theorem del_buf_trims_epoch (df : list Raw.row) (k : Z) :
  let g := get_group Raw.epochNum k df in
  let g' := get_group Raw.epochNum k (del_buf df) in
  g' = skipn EPOCH_BUF (firstn (length g - EPOCH_BUF) g)
  /\ (length g <= 2 * EPOCH_BUF -> g' = [])
  /\ (2 * EPOCH_BUF < length g -> length g' = length g - 2 * EPOCH_BUF).
Proof.
  intros g g'.
  assert (H : g' = skipn EPOCH_BUF (firstn (length g - EPOCH_BUF) g)).
  { unfold g'. change (del_buf df) with (trim_from Raw.epochNum EPOCH_BUF [] df).
    rewrite trim_from_group. simpl count_occ. rewrite Nat.sub_0_r. auto. }
  split; auto. split.
  - intros HL. rewrite H. apply length_zero_iff_nil.
    rewrite length_skipn, length_firstn. unfold EPOCH_BUF in *. lia.
  - intros HL. rewrite H, length_skipn, length_firstn. unfold EPOCH_BUF in *. lia.
Qed.

Lemma del_buf_trims_epoch_witness :
  get_group Raw.epochNum 5 (del_buf two_epochs) = [raw_frame 5 0 3 3; raw_frame 5 0 3 4]
  /\ get_group Raw.epochNum 2 (del_buf two_epochs) = [].
Proof.
  destruct (del_buf_trims_epoch two_epochs 5) as [H5 [_ L5]].
  destruct (del_buf_trims_epoch two_epochs 2) as [_ [E2 _]].
  split.
  - rewrite H5. reflexivity.
  - apply E2. simpl. lia.
Defined.

Lemma MIN_DUR_frames (n : nat) :
  Qle_bool MIN_DUR (inject_Z (Z.of_nat n)) = true <-> 100 <= n.
Proof.
  rewrite Qle_bool_iff.
  assert (E : MIN_DUR == inject_Z 100) by reflexivity.
  rewrite E, <- Zle_Qle. lia.
Qed.

Lemma dur_fish_pred_total (g : list Raw.row) :
  g <> [] -> exists b, dur_fish_pred g = Ok b.
Proof.
  intros Hne. unfold dur_fish_pred.
  destruct (Qle_bool _ _); eauto.
  destruct (@np_nanmax_total (map Raw.fishNum g)) as [m Hm].
  { destruct g; [tauto|discriminate]. }
  rewrite Hm. simpl. eauto.
Qed.

Lemma dur_fish_filter_total (db : list Raw.row) :
  exists out, dur_fish_filter db = Ok out.
Proof.
  apply groupby_filter_total. intros k Hk.
  apply dur_fish_pred_total. apply get_group_nonempty. auto.
Qed.

(** C3, as the code has it.  In the second step of the structural
    filter an already trimmed epoch survives if and only if it has at
    least MIN_DUR = 100 frames and its largest fishNum (NaN ignored) is
    strictly below MAX_FISH = 1.  An epoch with fishNum = 1 in every
    frame is therefore dropped. *)
Theorem dur_fish_filter_keeps (db : list Raw.row) :
  exists out,
    dur_fish_filter db = Ok out
    /\ forall r,
        In r out <->
        In r db
        /\ 100 <= length (get_group Raw.epochNum (Raw.epochNum r) db)
        /\ exists m,
            np_nanmax (map Raw.fishNum (get_group Raw.epochNum (Raw.epochNum r) db))
            = Ok m
            /\ fltb m MAX_FISH = true.
Proof.
  destruct (dur_fish_filter_total db) as [out Hout].
  exists out. split; auto. intros r.
  unfold dur_fish_filter in Hout.
  rewrite (@groupby_filter_In _ _ _ _ _ r Hout).
  set (g := get_group Raw.epochNum (Raw.epochNum r) db).
  unfold dur_fish_pred.
  destruct (Qle_bool MIN_DUR (inject_Z (Z.of_nat (length g)))) eqn:E.
  - apply MIN_DUR_frames in E. split.
    + intros [Hin Hp]. split; auto. split; auto.
      destruct (np_nanmax (map Raw.fishNum g)) as [m|e]; simpl in Hp; [|discriminate].
      exists m. split; auto. inversion Hp. auto.
    + intros [Hin [_ [m [Hm Hlt]]]]. split; auto.
      rewrite Hm. simpl. f_equal. exact Hlt.
  - split.
    + intros [_ Hp]. discriminate.
    + intros [_ [HL _]]. apply MIN_DUR_frames in HL. congruence.
Qed.

(** C3, the claim as stated fails: an epoch that has 100 frames after
    the trim and exactly one detected subject, fishNum = 1, in every
    frame does not survive. *)
Lemma single_subject_epoch_dropped :
  map Raw.fishNum (del_buf one_fish_epoch) = repeat (Fin 1) 100
  /\ map Raw.epochNum (del_buf one_fish_epoch) = repeat 1%Z 100
  /\ dur_fish_filter (del_buf one_fish_epoch) = Ok []
  /\ raw_filter one_fish_epoch = Ok [].
Proof. repeat split; vm_compute; reflexivity. Qed.

Lemma rev_cons_last (A : Type) (g : list A) (l d : A) (t : list A) :
  rev g = l :: t -> last g d = l.
Proof.
  intros H. rewrite <- (rev_involutive g), H. simpl. apply last_last.
Qed.

Lemma direction_pred_nonempty (g : list Ana.row) (d : Ana.row) :
  g <> [] ->
  direction_pred g
  = Ok (fgeb (fmul (fsub (series_mean (map Ana.headx g)) (series_mean (map Ana.x g)))
                   (Ana.x (last g d)))
             (Fin 0)).
Proof.
  intros Hne. unfold direction_pred. destruct (rev g) as [|l t] eqn:E.
  - exfalso. apply Hne. rewrite <- (rev_involutive g), E. auto.
  - rewrite (rev_cons_last g d E). auto.
Qed.

Lemma direction_filter_total (f1 : list Ana.row) :
  exists out, direction_filter f1 = Ok out.
Proof.
  apply groupby_filter_total. intros k Hk.
  destruct (get_group Ana.epochNum k f1) as [|r g] eqn:E.
  - exfalso. revert E. apply get_group_nonempty. auto.
  - rewrite (@direction_pred_nonempty (r :: g) r) by discriminate. eauto.
Qed.

(** C7.  An epoch that reaches the direction-consistency filter is kept
    if and only if (mean of headx over the epoch - mean of x over the
    epoch) * (x of the last frame of the epoch) >= 0. *)
Theorem direction_filter_keeps (f1 : list Ana.row) :
  exists out,
    direction_filter f1 = Ok out
    /\ forall r,
        In r out <->
        In r f1
        /\ fgeb (fmul (fsub (series_mean
                               (map Ana.headx (get_group Ana.epochNum (Ana.epochNum r) f1)))
                            (series_mean
                               (map Ana.x (get_group Ana.epochNum (Ana.epochNum r) f1))))
                      (Ana.x (last (get_group Ana.epochNum (Ana.epochNum r) f1) r)))
                (Fin 0)
           = true.
Proof.
  destruct (direction_filter_total f1) as [out Hout].
  exists out. split; auto. intros r.
  unfold direction_filter in Hout.
  rewrite (@groupby_filter_In _ _ _ _ _ r Hout).
  split; intros [Hin H]; split; auto.
  - rewrite (@direction_pred_nonempty _ r) in H.
    + inversion H. auto.
    + apply get_group_nonempty. apply in_map. auto.
  - rewrite (@direction_pred_nonempty _ r).
    + f_equal. auto.
    + apply get_group_nonempty. apply in_map. auto.
Qed.

(** *** Every filter only deletes rows *)

Lemma gap_filter_total (df : list Ana.row) :
  exists out, groupby_filter Ana.epochNum gap_pred df = Ok out.
Proof.
  apply groupby_filter_total. intros k Hk. unfold gap_pred.
  destruct (@np_nanmax_total (map Ana.deltaT (get_group Ana.epochNum k df)))
    as [m Hm].
  { pose proof (get_group_nonempty Ana.epochNum k df Hk).
    destruct (get_group Ana.epochNum k df); [tauto|discriminate]. }
  rewrite Hm. simpl. eauto.
Qed.

Lemma dur_y_x_filter_total (df : list Ana.row) :
  exists out, dur_y_x_filter df = Ok out.
Proof.
  unfold dur_y_x_filter. destruct (gap_filter_total df) as [f1 H1].
  rewrite H1. simpl. apply direction_filter_total.
Qed.

Lemma whole_trans (A : Type) (a b c : list A) :
  a = b \/ a = [] -> b = c \/ b = [] -> a = c \/ a = [].
Proof. intros [H1|H1] [H2|H2]; subst; auto. Qed.

Lemma displ_dist_pred_total (g : list Kin.row) :
  g <> [] -> exists b, displ_dist_pred g = Ok b.
Proof.
  intros Hne. unfold displ_dist_pred.
  destruct g as [|r g]; [tauto|].
  destruct (@np_nanmax_total (map fabs (map Kin.displ (r :: g)))) as [m1 H1];
    [discriminate|].
  rewrite H1. cbn [bind]. destruct (fleb m1 MAX_INST_DISPL); eauto.
  match goal with |- context [np_nanmax ?l] =>
    destruct (@np_nanmax_total l) as [m2 H2] end.
  { unfold rolling_median3. simpl. discriminate. }
  rewrite H2. simpl. eauto.
Qed.

Lemma ang_vel_pred_total (g : list Kin.row) :
  9 <= length (loc_from_1_angVel g) -> exists b, ang_vel_pred g = Ok b.
Proof.
  intros H. unfold ang_vel_pred. change SM_WINDOW_FOR_FILTER with (2 * 4 + 1).
  destruct (@smooth_series_ML_total (loc_from_1_angVel g) 4) as [s [Hs [_ Hl]]];
    [simpl; lia|].
  rewrite Hs. cbn [bind].
  destruct (@np_nanmax_total (map fabs (values s))) as [m Hm].
  { intros E. apply (f_equal (@length _)) in E. rewrite length_map in E.
    simpl in E. lia. }
  rewrite Hm. simpl. eauto.
Qed.

Lemma ang_accel_pred_total (g : list Kin.row) :
  g <> [] -> exists b, ang_accel_pred g = Ok b.
Proof.
  intros Hne. unfold ang_accel_pred.
  destruct (@np_nanmax_total (map fabs (map Kin.angAccel g))) as [m Hm].
  { destruct g; [tauto|discriminate]. }
  rewrite Hm. simpl. eauto.
Qed.

Lemma groupby_filter_keys (A : Type) (key : A -> Z) pred (df out : list A) (k : Z) :
  groupby_filter key pred df = Ok out ->
  In k (map key out) ->
  In k (map key df) /\ get_group key k out = get_group key k df.
Proof.
  intros H Hk. split.
  - apply in_map_iff in Hk. destruct Hk as [r [Hr Hin]]. subst k.
    apply in_map. eapply sublist_In; eauto. eapply groupby_filter_sublist; eauto.
  - destruct (groupby_filter_whole _ _ _ k H) as [E|E]; auto.
    exfalso. revert E. apply get_group_nonempty. auto.
Qed.

(** The plausibility filter returns a table when every epoch has at
    least 9 rows from label 1 on. *)
Lemma displ_dist_vel_filter_total (kin : list Kin.row) :
  (forall k, In k (map Kin.epochNum kin) ->
             9 <= length (loc_from_1_angVel (get_group Kin.epochNum k kin))) ->
  exists out, displ_dist_vel_filter kin = Ok out.
Proof.
  intros H. unfold displ_dist_vel_filter.
  destruct (@groupby_filter_total _ Kin.epochNum displ_dist_pred kin) as [f1 H1].
  { intros k Hk. apply displ_dist_pred_total. apply get_group_nonempty. auto. }
  rewrite H1. cbn [bind].
  destruct (@groupby_filter_total _ Kin.epochNum ang_vel_pred f1) as [f2 H2].
  { intros k Hk. destruct (@groupby_filter_keys _ _ _ _ _ _ H1 Hk) as [Hk' E].
    rewrite E. apply ang_vel_pred_total. auto. }
  rewrite H2. cbn [bind].
  apply groupby_filter_total.
  intros k Hk. apply ang_accel_pred_total. apply get_group_nonempty. auto.
Qed.

(** C10.  Every filter stage returns rows of its input table, unchanged
    and in their order: the structural filter and the orientation/timing
    filter always return, the plausibility filter whenever it returns
    (and it returns when every epoch has 9 rows from label 1 on); the
    trim step deletes buffer frames and every filter by group deletes
    whole epochs. *)
Theorem filters_only_delete_rows :
  (forall raw,
      exists out, raw_filter raw = Ok out /\ sublist out raw
        /\ forall k, get_group Raw.epochNum k out
                     = get_group Raw.epochNum k (del_buf raw)
                     \/ get_group Raw.epochNum k out = [])
  /\ (forall ana,
         exists out, dur_y_x_filter ana = Ok out /\ sublist out ana
           /\ forall k, get_group Ana.epochNum k out = get_group Ana.epochNum k ana
                        \/ get_group Ana.epochNum k out = [])
  /\ (forall kin out,
         displ_dist_vel_filter kin = Ok out ->
         sublist out kin
         /\ forall k, get_group Kin.epochNum k out = get_group Kin.epochNum k kin
                      \/ get_group Kin.epochNum k out = [])
  /\ (forall kin,
         (forall k, In k (map Kin.epochNum kin) ->
                    9 <= length (loc_from_1_angVel (get_group Kin.epochNum k kin))) ->
         exists out, displ_dist_vel_filter kin = Ok out).
Proof.
  split; [|split; [|split]].
  - intros raw. unfold raw_filter.
    destruct (dur_fish_filter_total (del_buf raw)) as [out Hout].
    exists out. split; auto. unfold dur_fish_filter in Hout. split.
    + eapply sublist_trans; [eapply groupby_filter_sublist; eauto|].
      apply boolean_index_sublist.
    + intros k. eapply groupby_filter_whole; eauto.
  - intros ana. destruct (dur_y_x_filter_total ana) as [out Hout].
    exists out. split; auto. unfold dur_y_x_filter in Hout.
    destruct (groupby_filter Ana.epochNum gap_pred ana) as [f1|] eqn:H1;
      simpl in Hout; [|discriminate].
    unfold direction_filter in Hout. split.
    + eapply sublist_trans; eapply groupby_filter_sublist; eauto.
    + intros k. eapply whole_trans; eapply groupby_filter_whole; eauto.
  - intros kin out Hout. unfold displ_dist_vel_filter in Hout.
    destruct (groupby_filter Kin.epochNum displ_dist_pred kin) as [f1|] eqn:H1;
      simpl in Hout; [|discriminate].
    destruct (groupby_filter Kin.epochNum ang_vel_pred f1) as [f2|] eqn:H2;
      simpl in Hout; [|discriminate].
    split.
    + eapply sublist_trans; [eapply groupby_filter_sublist; eauto|].
      eapply sublist_trans; eapply groupby_filter_sublist; eauto.
    + intros k. eapply whole_trans; [eapply groupby_filter_whole; eauto|].
      eapply whole_trans; eapply groupby_filter_whole; eauto.
  - apply displ_dist_vel_filter_total.
Qed.

(** *** The label slice of the angular-velocity predicate *)

(** When every label of the epoch is at least 1 the slice [loc[1:]]
    is the whole epoch: the first frame stays. *)
Lemma loc_from_1_keeps_all (g : list Kin.row) :
  Forall (fun r => (1 <= Kin.label r)%Z) g ->
  loc_from_1_angVel g = map (fun r => (Kin.label r, Kin.angVel r)) g.
Proof.
  intros HF. unfold loc_from_1_angVel. f_equal.
  induction HF as [|r g Hr HF IH]; simpl; auto.
  apply Z.leb_le in Hr. rewrite Hr, IH. auto.
Qed.

(** Only in the epoch that holds the label 0 does the slice drop the
    first frame; there the predicate is the one of the specification. *)
Lemma ang_vel_pred_label_0 (r : Kin.row) (g : list Kin.row) :
  Kin.label r = 0%Z -> Forall (fun r => (1 <= Kin.label r)%Z) g ->
  ang_vel_pred (r :: g) = ang_vel_pred_frames2 (r :: g).
Proof.
  intros H0 HF. unfold ang_vel_pred, ang_vel_pred_frames2.
  replace (loc_from_1_angVel (r :: g)) with (loc_from_1_angVel g).
  - rewrite loc_from_1_keeps_all by auto. reflexivity.
  - unfold loc_from_1_angVel. simpl. rewrite H0. simpl. auto.
Qed.

(** C2, the code at the failing input.  The heading of the second epoch
    of [raw_jump_second] jumps once, so that angVel is 150 at the second
    frame of the epoch and 0 afterwards.  Smoothed over frames 2..end
    the largest value is 150 > MAX_ANG_VEL and the epoch is to be
    dropped.  The code slices by label, [loc[1:]]: the labels of the
    second epoch are 100..199, its first frame (angVel NaN) stays in the
    slice, the largest smoothed value is 50 and the epoch is kept.  With
    the same epoch first in the table the label 0 is dropped and the
    epoch is removed. *)
Theorem ang_vel_pred_slices_by_label :
  let g := get_group Kin.epochNum 2 kin_jump_second in
  map Kin.label g = map Z.of_nat (seq 100 100)
  /\ map Kin.angVel (firstn 3 g) = [NaN; Fin (375000000 # 2500000); Fin (0 # 250000000)]
  /\ length (loc_from_1_angVel g) = 100
  /\ ang_vel_pred g = Ok true
  /\ ang_vel_pred_frames2 g = Ok false
  /\ map Kin.epochNum (rows_of (analyze_dlm_filtered norm_axis raw_jump_second))
     = repeat 1%Z 100 ++ repeat 2%Z 100
  /\ map Kin.epochNum (rows_of (analyze_dlm_filtered norm_axis raw_jump_first))
     = repeat 1%Z 100.
Proof. repeat split; vm_compute; reflexivity. Qed.

(** C4, the claim as stated fails: on a sequence shorter than the window
    the smoothing function raises; it does not return the all-undefined
    series of the length of the input. *)
Lemma short_sequence_raises :
  smooth_series_ML short_series SM_WINDOW_FOR_FILTER = Raise ValueError
  /\ smooth_series_ML short_series SM_WINDOW_FOR_FILTER
     <> Ok (map (fun p => (fst p, NaN)) short_series).
Proof. split; [vm_compute; reflexivity|vm_compute; discriminate]. Qed.

Lemma ang_vel_pred_short (g : list Kin.row) :
  length (loc_from_1_angVel g) < SM_WINDOW_FOR_FILTER ->
  ang_vel_pred g = Raise ValueError.
Proof.
  intros H. unfold ang_vel_pred. rewrite smooth_series_ML_short by auto. auto.
Qed.

Lemma ang_vel_pred_all_nan (g : list Kin.row) (s : Series) :
  smooth_series_ML (loc_from_1_angVel g) SM_WINDOW_FOR_FILTER = Ok s ->
  Forall (fun v => v = NaN) (values s) ->
  ang_vel_pred g = Ok false.
Proof.
  intros Hs HF. unfold ang_vel_pred. rewrite Hs. cbn [bind].
  assert (Hlen : 9 <= length (values s)).
  { destruct (Nat.lt_ge_cases (length (loc_from_1_angVel g)) SM_WINDOW_FOR_FILTER)
      as [Hlt|Hge].
    - rewrite smooth_series_ML_short in Hs by auto. discriminate.
    - destruct (@smooth_series_ML_total (loc_from_1_angVel g) 4) as [s' [Hs' [_ Hl]]];
        [exact Hge|].
      change (2 * 4 + 1) with SM_WINDOW_FOR_FILTER in Hs'.
      rewrite Hs in Hs'. inversion Hs'; subst. rewrite Hl. exact Hge. }
  rewrite np_nanmax_all_nan.
  - reflexivity.
  - intros E. apply (f_equal (@length _)) in E. rewrite length_map in E.
    simpl in E. lia.
  - rewrite Forall_forall in *. intros v Hv. apply in_map_iff in Hv.
    destruct Hv as [w [Hw Hin]]. rewrite (HF w Hin) in Hw. subst. auto.
Qed.

(** C4, as the code has it.  On a sequence shorter than the window the
    smoothing function raises an error, and so do the angular-velocity
    predicate and the plausibility filter for an epoch whose slice is
    shorter than 9; nothing is returned.  When the smoothing returns and
    every smoothed value is undefined, the maximum is NaN, the
    comparison with MAX_ANG_VEL is false, and the epoch is excluded. *)
Theorem smoothing_short_raises :
  (forall (a : Series) (W : nat),
      length a < W -> smooth_series_ML a W = Raise ValueError)
  /\ (forall g : list Kin.row,
         length (loc_from_1_angVel g) < SM_WINDOW_FOR_FILTER ->
         ang_vel_pred g = Raise ValueError)
  /\ (forall (kin f1 : list Kin.row) (k : Z),
         groupby_filter Kin.epochNum displ_dist_pred kin = Ok f1 ->
         In k (map Kin.epochNum f1) ->
         length (loc_from_1_angVel (get_group Kin.epochNum k f1)) < SM_WINDOW_FOR_FILTER ->
         exists e, displ_dist_vel_filter kin = Raise e)
  /\ (forall (g : list Kin.row) (s : Series),
         smooth_series_ML (loc_from_1_angVel g) SM_WINDOW_FOR_FILTER = Ok s ->
         Forall (fun v => v = NaN) (values s) ->
         ang_vel_pred g = Ok false).
Proof.
  split; [|split; [|split]].
  - apply smooth_series_ML_short.
  - apply ang_vel_pred_short.
  - intros kin f1 k H1 Hk Hlen. unfold displ_dist_vel_filter.
    rewrite H1. cbn [bind].
    destruct (groupby_filter_raise Kin.epochNum ang_vel_pred f1 k Hk
                (ang_vel_pred_short _ Hlen)) as [e He].
    rewrite He. simpl. eauto.
  - apply ang_vel_pred_all_nan.
Qed.

Lemma smoothing_short_raises_witness :
  smooth_series_ML short_series 9 = Raise ValueError
  /\ ang_vel_pred (firstn 5 undefined_angVel_epoch) = Raise ValueError
  /\ (exists e, displ_dist_vel_filter (firstn 5 undefined_angVel_epoch) = Raise e)
  /\ ang_vel_pred undefined_angVel_epoch = Ok false.
Proof.
  destruct smoothing_short_raises as [H1 [H2 [H3 H4]]].
  split; [|split; [|split]].
  - apply H1. vm_compute. lia.
  - apply H2. vm_compute. lia.
  - apply (H3 _ (firstn 5 undefined_angVel_epoch) 4%Z).
    + vm_compute. reflexivity.
    + simpl. auto.
    + vm_compute. lia.
  - apply (H4 _ (map (fun r => (Kin.label r, NaN)) undefined_angVel_epoch)).
    + vm_compute. reflexivity.
    + vm_compute. repeat constructor.
Defined.

Lemma filters_only_delete_rows_witness :
  sublist (get_group Kin.epochNum 1 kin_jump_first) kin_jump_first
  /\ exists out, displ_dist_vel_filter kin_jump_first = Ok out.
Proof.
  destruct filters_only_delete_rows as [_ [_ [H3 H4]]].
  split.
  - apply (H3 kin_jump_first (get_group Kin.epochNum 1 kin_jump_first)).
    vm_compute. reflexivity.
  - apply H4. intros k Hk.
    assert (E : map Kin.epochNum kin_jump_first = repeat 2%Z 100 ++ repeat 1%Z 100)
      by (vm_compute; reflexivity).
    rewrite E in Hk. apply in_app_or in Hk.
    destruct Hk as [Hk|Hk]; apply repeat_spec in Hk; subst k; vm_compute; lia.
Defined.

(** C9.  The epoch grouper partitions the table by epochNum: the groups
    are the epochs of the table, each once, in the order in which their
    first rows appear (no sorting by key), and every group holds the
    frames of its epoch in their order in the table.  The group-wise
    operations work inside one epoch: the difference, the position
    count and the first value of a frame are those of its own epoch
    taken alone, and a filter keeps a frame by the predicate of its own
    epoch. *)
Theorem grp_by_epoch_partition (A : Type) (key : A -> Z) (df : list A) :
  NoDup (map fst (grp_by_epoch key df))
  /\ (forall k, In k (map fst (grp_by_epoch key df)) <-> In k (map key df))
  /\ StronglySorted (fun k1 k2 => first_row key k1 df < first_row key k2 df)
                    (map fst (grp_by_epoch key df))
  /\ (forall k g, In (k, g) (grp_by_epoch key df) ->
                  g = get_group key k df /\ g <> [] /\ sublist g df)
  /\ (forall col k,
         select k (map key df) (groupby_diff key col df)
         = series_diff (map col (get_group key k df)))
  /\ (forall k,
         select k (map key df) (cumcount key df)
         = seq 0 (length (get_group key k df)))
  /\ (forall col,
         transform_first key col df
         = map (fun r => first_valid (map col (get_group key (key r) df))) df)
  /\ (forall pred out r,
         groupby_filter key pred df = Ok out ->
         (In r out <-> In r df /\ pred (get_group key (key r) df) = Ok true)).
Proof.
  split; [apply keys_NoDup|].
  split; [apply keys_In|].
  split; [apply keys_first_seen_order|].
  split.
  { intros k g Hin. destruct (grp_entry _ _ _ _ Hin) as [Hg Hne].
    split; auto. split; auto. subst g. apply sublist_filter. }
  split; [intros; apply groupby_diff_local|].
  split; [intros; apply cumcount_local|].
  split; [intros; apply transform_first_local|].
  intros pred out r H. apply groupby_filter_In. auto.
Qed.

Lemma grp_by_epoch_partition_witness :
  map fst (grp_by_epoch Raw.epochNum two_epochs) = [5; 2]%Z
  /\ (In (raw_frame 5 0 3 4) (get_group Raw.epochNum 5 two_epochs)
      <-> In (raw_frame 5 0 3 4) two_epochs
          /\ Ok (6 <=? length (get_group Raw.epochNum 5 two_epochs)) = Ok true).
Proof.
  destruct (grp_by_epoch_partition Raw.epochNum two_epochs)
    as [_ [_ [_ [_ [_ [_ [_ H]]]]]]].
  split; [reflexivity|].
  apply (H (fun g => Ok (6 <=? length g))). vm_compute. reflexivity.
Defined.

(* ================================================================= *)
(** ** The first kinematics stage *)

Lemma map_combine_maps (A B C D : Type) (f : A -> B) (g : A -> C)
      (h : B * C -> D) (l : list A) :
  map h (combine (map f l) (map g l)) = map (fun x => h (f x, g x)) l.
Proof. induction l as [|x l IH]; simpl; auto. rewrite IH. auto. Qed.

Lemma centered_length (col : Raw.row -> f64) (rt : list (Z * Raw.row)) :
  length (centered col rt) = length rt.
Proof.
  unfold centered, transform_first.
  rewrite length_map, length_combine, !length_map. lia.
Qed.

(** A centered column gives every frame its value minus the first valid
    value of its own epoch. *)
Lemma centered_local (col : Raw.row -> f64) (rt : list (Z * Raw.row)) :
  centered col rt
  = map (fun q => fsub (col (snd q))
                       (first_valid
                          (map (fun q' => col (snd q'))
                               (get_group rt_epochNum (rt_epochNum q) rt))))
        rt.
Proof.
  unfold centered. rewrite transform_first_local.
  rewrite (map_combine_maps (fun p => col (snd p))
             (fun r => first_valid
                         (map (fun p => col (snd p))
                              (get_group rt_epochNum (rt_epochNum r) rt)))
             (fun p => fsub (fst p) (snd p)) rt).
  reflexivity.
Qed.

Lemma centered_group (col : Raw.row -> f64) (rt : list (Z * Raw.row)) (k : Z) :
  select k (map rt_epochNum rt) (centered col rt)
  = map (fun q => fsub (col (snd q))
                       (first_valid
                          (map (fun q' => col (snd q'))
                               (get_group rt_epochNum k rt))))
        (get_group rt_epochNum k rt).
Proof.
  rewrite centered_local, select_map. apply map_ext_in.
  intros q Hq. apply filter_In in Hq. destruct Hq as [_ Hk].
  apply Z.eqb_eq in Hk. rewrite Hk. auto.
Qed.

Ltac table_lengths :=
  rewrite ?length_combine, ?length_map, ?centered_length, ?groupby_diff_length,
    ?length_map; lia.

Lemma ana_table_columns (rt : list (Z * Raw.row)) :
  map Ana.epochNum (ana_table rt) = map rt_epochNum rt
  /\ map Ana.x (ana_table rt) = centered Raw.absx rt
  /\ map Ana.y (ana_table rt) = centered Raw.absy rt
  /\ map Ana.headx (ana_table rt) = centered Raw.absHeadx rt
  /\ map Ana.heady (ana_table rt) = centered Raw.absHeady rt
  /\ map Ana.centeredAng (ana_table rt) = centered Raw.ang rt
  /\ map Ana.deltaT (ana_table rt)
     = groupby_diff rt_epochNum (fun p => Raw.time (snd p)) rt.
Proof.
  unfold ana_table. rewrite !map_map.
  repeat split.
  - rewrite (map_ext _ (fun p => rt_epochNum (fst p)))
      by (intros [lr [dt [cx [cy [chx [chy ca]]]]]]; reflexivity).
    rewrite <- (map_map fst rt_epochNum). rewrite map_fst_combine; auto.
    table_lengths.
  - rewrite (map_ext _ (fun p => fst (snd (snd p))))
      by (intros [lr [dt [cx [cy [chx [chy ca]]]]]]; reflexivity).
    rewrite <- (map_map (fun p => snd (snd p)) fst).
    rewrite <- (map_map snd snd).
    rewrite !map_snd_combine, map_fst_combine; auto; table_lengths.
  - rewrite (map_ext _ (fun p => fst (snd (snd (snd p)))))
      by (intros [lr [dt [cx [cy [chx [chy ca]]]]]]; reflexivity).
    rewrite <- (map_map (fun p => snd (snd (snd p))) fst).
    rewrite <- (map_map (fun p => snd (snd p)) snd).
    rewrite <- (map_map snd snd).
    rewrite !map_snd_combine, map_fst_combine; auto; table_lengths.
  - rewrite (map_ext _ (fun p => fst (snd (snd (snd (snd p))))))
      by (intros [lr [dt [cx [cy [chx [chy ca]]]]]]; reflexivity).
    rewrite <- (map_map (fun p => snd (snd (snd (snd p)))) fst).
    rewrite <- (map_map (fun p => snd (snd (snd p))) snd).
    rewrite <- (map_map (fun p => snd (snd p)) snd).
    rewrite <- (map_map snd snd).
    rewrite !map_snd_combine, map_fst_combine; auto; table_lengths.
  - rewrite (map_ext _ (fun p => fst (snd (snd (snd (snd (snd p)))))))
      by (intros [lr [dt [cx [cy [chx [chy ca]]]]]]; reflexivity).
    rewrite <- (map_map (fun p => snd (snd (snd (snd (snd p))))) fst).
    rewrite <- (map_map (fun p => snd (snd (snd (snd p)))) snd).
    rewrite <- (map_map (fun p => snd (snd (snd p))) snd).
    rewrite <- (map_map (fun p => snd (snd p)) snd).
    rewrite <- (map_map snd snd).
    rewrite !map_snd_combine, map_fst_combine; auto; table_lengths.
  - rewrite (map_ext _ (fun p => snd (snd (snd (snd (snd (snd p)))))))
      by (intros [lr [dt [cx [cy [chx [chy ca]]]]]]; reflexivity).
    rewrite <- (map_map (fun p => snd (snd (snd (snd (snd p))))) snd).
    rewrite <- (map_map (fun p => snd (snd (snd (snd p)))) snd).
    rewrite <- (map_map (fun p => snd (snd (snd p))) snd).
    rewrite <- (map_map (fun p => snd (snd p)) snd).
    rewrite <- (map_map snd snd).
    rewrite !map_snd_combine; auto; table_lengths.
  - rewrite (map_ext _ (fun p => fst (snd p)))
      by (intros [lr [dt [cx [cy [chx [chy ca]]]]]]; reflexivity).
    rewrite <- (map_map snd fst).
    rewrite map_snd_combine, map_fst_combine; auto; table_lengths.
Qed.

Lemma fsub_self (v : f64) : is_fin v -> feq (fsub v v) (Fin 0).
Proof.
  destruct v as [q| | |]; simpl; try tauto. intros _. ring.
Qed.

Lemma first_valid_head (v : f64) (l : list f64) :
  is_fin v -> first_valid (v :: l) = v.
Proof. destruct v; simpl; tauto. Qed.

(** A centered column on one epoch: every value minus the first value of
    the epoch that is not NaN. *)
Lemma ana_column_first_valid (rt : list (Z * Raw.row)) (k : Z)
      (c' : Ana.row -> f64) (c : Raw.row -> f64) :
  map c' (ana_table rt) = centered c rt ->
  map c' (get_group Ana.epochNum k (ana_table rt))
  = map (fun q => fsub (c (snd q))
                       (first_valid (map (fun q' => c (snd q'))
                                         (get_group rt_epochNum k rt))))
        (get_group rt_epochNum k rt).
Proof.
  intros Hc. rewrite <- select_map, Hc.
  destruct (ana_table_columns rt) as [Hk _]. rewrite Hk.
  apply centered_group.
Qed.

Lemma centered_columns_of_table (rt : list (Z * Raw.row))
      (c' : Ana.row -> f64) (c : Raw.row -> f64) :
  In (c', c) centered_columns -> map c' (ana_table rt) = centered c rt.
Proof.
  destruct (ana_table_columns rt) as [_ [Cx [Cy [Chx [Chy [Ca _]]]]]].
  unfold centered_columns. simpl.
  intros [H|[H|[H|[H|[H|[]]]]]]; injection H as H1 H2; subst; assumption.
Qed.

Lemma fsub_first_valid_not_fin (v : f64) (l : list f64) :
  ~ is_fin v -> fsub v (first_valid (v :: l)) = NaN.
Proof.
  destruct v as [q| | |]; simpl; intros H; try reflexivity. tauto.
Qed.

(** C6, as the code has it.  In every epoch of the table that reaches
    the centered-coordinate computation, every frame's x, y, headx, heady
    and centeredAng are the frame's absolute value minus the first value
    of the epoch in that column that is not NaN.  Where the absolute
    value of the first frame is a number, that value is the first
    frame's and the first frame's centered value is exactly 0; where it
    is not, the first frame's centered value is NaN, not 0. *)
Theorem centered_first_frame_zero (rt : list (Z * Raw.row)) (k : Z)
        (p : Z * Raw.row) (ps : list (Z * Raw.row)) :
  get_group rt_epochNum k rt = p :: ps ->
  exists a rest,
    get_group Ana.epochNum k (ana_table rt) = a :: rest
    /\ forall c' c,
        In (c', c) centered_columns ->
        map c' (a :: rest)
        = map (fun q => fsub (c (snd q))
                             (first_valid (map (fun q' => c (snd q')) (p :: ps))))
              (p :: ps)
        /\ (is_fin (c (snd p)) ->
            first_valid (map (fun q' => c (snd q')) (p :: ps)) = c (snd p)
            /\ feq (c' a) (Fin 0))
        /\ (~ is_fin (c (snd p)) -> c' a = NaN).
Proof.
  intros Hg.
  assert (Hcol : forall c' c, In (c', c) centered_columns ->
            map c' (get_group Ana.epochNum k (ana_table rt))
            = map (fun q => fsub (c (snd q))
                                 (first_valid (map (fun q' => c (snd q')) (p :: ps))))
                  (p :: ps)).
  { intros c' c Hin. rewrite <- Hg. apply ana_column_first_valid.
    apply centered_columns_of_table. exact Hin. }
  destruct (get_group Ana.epochNum k (ana_table rt)) as [|a rest] eqn:Ha.
  - specialize (Hcol Ana.x Raw.absx (or_introl eq_refl)). discriminate.
  - exists a, rest. split; [reflexivity|]. intros c' c Hin.
    specialize (Hcol c' c Hin). split; [exact Hcol|].
    cbn [map] in Hcol. injection Hcol as Hfirst _.
    split.
    + intros Hfin. cbn [map]. rewrite Hfirst.
      rewrite (@first_valid_head (c (snd p)) _ Hfin). split; [reflexivity|].
      apply fsub_self. exact Hfin.
    + intros Hnot. rewrite Hfirst. apply fsub_first_valid_not_fin. exact Hnot.
Qed.

Lemma centered_first_frame_zero_witness :
  exists a rest,
    get_group Ana.epochNum 2
      (ana_table (combine (fresh_labels two_epochs) two_epochs)) = a :: rest
    /\ feq (Ana.x a) (Fin 0) /\ feq (Ana.y a) (Fin 0)
    /\ feq (Ana.headx a) (Fin 0) /\ feq (Ana.heady a) (Fin 0)
    /\ feq (Ana.centeredAng a) (Fin 0).
Proof.
  destruct (@centered_first_frame_zero
              (combine (fresh_labels two_epochs) two_epochs) 2%Z
              (2%Z, raw_frame 2 0 3 2)
              [(5%Z, raw_frame 2 0 3 5); (7%Z, raw_frame 2 0 3 7)])
    as [a [rest [Hg H]]]; [reflexivity|].
  exists a, rest. split; [exact Hg|].
  repeat split.
  - apply (H Ana.x Raw.absx); [simpl; tauto|exact I].
  - apply (H Ana.y Raw.absy); [simpl; tauto|exact I].
  - apply (H Ana.headx Raw.absHeadx); [simpl; tauto|exact I].
  - apply (H Ana.heady Raw.absHeady); [simpl; tauto|exact I].
  - apply (H Ana.centeredAng Raw.ang); [simpl; tauto|exact I].
Defined.

(** C6, the claim as stated fails: in an epoch that reaches the
    centered-coordinate computation with no x position in its first
    frame, x is NaN at the first frame, not 0; the values of the epoch
    are taken from its second frame, whose x is 0. *)
Lemma first_frame_nan_not_zero :
  raw_truncate raw_nan_first = Ok (rows_of (raw_truncate raw_nan_first))
  /\ map (fun q => Raw.absx (snd q))
         (firstn 3 (get_group rt_epochNum 2 (rows_of (raw_truncate raw_nan_first))))
     = [NaN; Fin 117%Q; Fin 118%Q]
  /\ map Ana.x
         (firstn 3 (get_group Ana.epochNum 2
                      (ana_table (rows_of (raw_truncate raw_nan_first)))))
     = [NaN; Fin 0%Q; Fin 1%Q]
  /\ ~ feq NaN (Fin 0).
Proof.
  split; [vm_compute; reflexivity|].
  split; [vm_compute; reflexivity|].
  split; [vm_compute; reflexivity|].
  simpl. tauto.
Qed.

(* ================================================================= *)
(** ** The second kinematics stage *)

Lemma np_divide_length (a b : list f64) :
  length (np_divide a b) = Nat.min (length a) (length b).
Proof. unfold np_divide. rewrite length_map, length_combine. auto. Qed.

Lemma align_length (s : Series) (labels : list Z) :
  length (align s labels) = length labels.
Proof. apply length_map. Qed.

(** The group-wise difference reads the column of keys and the column
    of values only. *)
Lemma groupby_diff_from_cols (A B : Type) (key1 : A -> Z) (key2 : B -> Z)
      (col1 : A -> f64) (col2 : B -> f64) (df1 : list A) (df2 : list B)
      (seen : list (Z * f64)) :
  map key1 df1 = map key2 df2 -> map col1 df1 = map col2 df2 ->
  groupby_diff_from key1 col1 seen df1 = groupby_diff_from key2 col2 seen df2.
Proof.
  revert df2 seen. induction df1 as [|r1 df1 IH]; intros [|r2 df2] seen Hk Hc;
    simpl in *; try discriminate; auto.
  injection Hk as Hk1 Hk. injection Hc as Hc1 Hc.
  rewrite Hk1, Hc1. f_equal. apply IH; auto.
Qed.

Lemma select_np_divide (k : Z) (keys : list Z) (a b : list f64) :
  length a = length keys -> length b = length keys ->
  select k keys (np_divide a b) = np_divide (select k keys a) (select k keys b).
Proof.
  unfold select, np_divide.
  revert a b. induction keys as [|k' keys IH]; intros [|x a] [|y b] Ha Hb;
    simpl in *; try discriminate; auto.
  destruct (k' =? k)%Z; simpl; rewrite IH by lia; auto.
Qed.

Section Kinematics2.

Variable norm2 : f64 -> f64 -> f64.

Lemma angVel_column_length (ana_f : list Ana.row) :
  length (angVel_column ana_f) = length ana_f.
Proof.
  unfold angVel_column.
  rewrite np_divide_length, groupby_diff_length, length_map. lia.
Qed.

Ltac kin_lengths :=
  rewrite ?length_combine, ?np_divide_length, ?align_length, ?length_map,
    ?length_combine, ?groupby_diff_length, ?length_combine, ?length_map,
    ?groupby_diff_length, ?length_map; lia.

Lemma displ_column_Ok (ana_f : list Ana.row) (d : list f64) :
  displ_column norm2 ana_f = Ok d ->
  d = groupby_diff Ana.epochNum (fun r => norm2 (Ana.x r) (Ana.y r)) ana_f
  /\ 2 <= length (grp_by_epoch Ana.epochNum ana_f).
Proof.
  unfold displ_column.
  destruct (grp_by_epoch Ana.epochNum ana_f) as [|g1 [|g2 gs]];
    try discriminate.
  intros H. injection H as H. split; [auto|simpl; lia].
Qed.

Lemma displ_column_total (ana_f : list Ana.row) :
  2 <= length (grp_by_epoch Ana.epochNum ana_f) ->
  displ_column norm2 ana_f
  = Ok (groupby_diff Ana.epochNum (fun r => norm2 (Ana.x r) (Ana.y r)) ana_f).
Proof.
  unfold displ_column.
  destruct (grp_by_epoch Ana.epochNum ana_f) as [|g1 [|g2 gs]]; simpl; auto; lia.
Qed.


Lemma kinematics2_columns (ana_f : list Ana.row) (out : list Kin.row) :
  kinematics2 norm2 ana_f = Ok out ->
  map Kin.ana out = ana_f
  /\ map Kin.angVel out = angVel_column ana_f
  /\ map Kin.angAccel out
     = np_divide (groupby_diff av_epochNum snd (combine ana_f (angVel_column ana_f)))
                 (map Ana.deltaT ana_f).
Proof.
  unfold kinematics2. fold (angVel_column ana_f).
  destruct (displ_column norm2 ana_f) as [displ|e] eqn:Hd; cbn [bind];
    [|discriminate].
  apply displ_column_Ok in Hd. destruct Hd as [Hd _]. subst displ.
  destruct (smoothed_groups _) as [ss|e]; cbn [bind]; [|discriminate].
  destruct (pd_concat ss) as [sm|e]; cbn [bind]; [|discriminate].
  intros H. injection H as H. subst out. rewrite !map_map.
  pose proof (angVel_column_length ana_f) as Hav.
  repeat split.
  - rewrite (map_ext _ (fun p => fst p))
      by (intros [r [vx [vy [ds [dp [av [avs aa]]]]]]]; reflexivity).
    rewrite map_fst_combine; auto. kin_lengths.
  - rewrite (map_ext _ (fun p => fst (snd (snd (snd (snd (snd p)))))))
      by (intros [r [vx [vy [ds [dp [av [avs aa]]]]]]]; reflexivity).
    rewrite <- (map_map (fun p => snd (snd (snd (snd (snd p))))) fst).
    rewrite <- (map_map (fun p => snd (snd (snd (snd p)))) snd).
    rewrite <- (map_map (fun p => snd (snd (snd p))) snd).
    rewrite <- (map_map (fun p => snd (snd p)) snd).
    rewrite <- (map_map snd snd).
    rewrite !map_snd_combine, map_fst_combine; auto; kin_lengths.
  - rewrite (map_ext _ (fun p => snd (snd (snd (snd (snd (snd (snd p))))))))
      by (intros [r [vx [vy [ds [dp [av [avs aa]]]]]]]; reflexivity).
    rewrite <- (map_map (fun p => snd (snd (snd (snd (snd (snd p)))))) snd).
    rewrite <- (map_map (fun p => snd (snd (snd (snd (snd p))))) snd).
    rewrite <- (map_map (fun p => snd (snd (snd (snd p)))) snd).
    rewrite <- (map_map (fun p => snd (snd (snd p))) snd).
    rewrite <- (map_map (fun p => snd (snd p)) snd).
    rewrite <- (map_map snd snd).
    rewrite !map_snd_combine; auto; kin_lengths.
Qed.

End Kinematics2.

Lemma smoothed_groups_total (gs : list (Z * list (Ana.row * f64))) :
  (forall k g, In (k, g) gs -> 4 <= length g) ->
  exists ss, smoothed_groups gs = Ok ss /\ length ss = length gs.
Proof.
  induction gs as [|[k g] gs IH]; intros H; cbn [smoothed_groups].
  - exists []. auto.
  - destruct IH as [ss [Hss Hlen]]; [intros; eapply H; right; eauto|].
    assert (Hg : 4 <= length g) by (apply (H k); left; auto).
    unfold smoothed_of_group. change SM_WINDOW_FOR_ANGVEL with (2 * 1 + 1).
    destruct (@smooth_series_ML_total
                (map (fun p => (Ana.label (fst p), snd p)) (skipn 1 g)) 1)
      as [s [Hs _]].
    { rewrite length_map, length_skipn. lia. }
    rewrite Hs, Hss. cbn [bind]. eexists. split; [reflexivity|].
    simpl. lia.
Qed.

(** The second kinematics stage returns a table when the table has at
    least two epochs and every epoch has at least 4 frames. *)
Lemma kinematics2_total (norm2 : f64 -> f64 -> f64) (ana_f : list Ana.row) :
  2 <= length (grp_by_epoch Ana.epochNum ana_f) ->
  (forall k, In k (map Ana.epochNum ana_f) ->
             4 <= length (get_group Ana.epochNum k ana_f)) ->
  exists out, kinematics2 norm2 ana_f = Ok out.
Proof.
  intros Htwo Hlen. unfold kinematics2. fold (angVel_column ana_f).
  rewrite (displ_column_total norm2 ana_f Htwo). cbn [bind].
  set (t := combine ana_f (angVel_column ana_f)).
  assert (Hkeys : map av_epochNum t = map Ana.epochNum ana_f).
  { unfold av_epochNum. rewrite <- (map_map fst Ana.epochNum).
    unfold t. rewrite map_fst_combine; auto. rewrite angVel_column_length. lia. }
  destruct (@smoothed_groups_total (grp_by_epoch av_epochNum t)) as [ss [Hss Hl]].
  { intros k g Hin. destruct (grp_entry _ _ _ _ Hin) as [Hg _]. subst g.
    rewrite <- count_occ_keys, Hkeys, count_occ_keys. apply Hlen.
    rewrite <- Hkeys. apply keys_In. apply (in_map fst) in Hin. auto. }
  rewrite Hss. cbn [bind].
  assert (Hss' : ss <> []).
  { intros E. subst ss. simpl in Hl.
    destruct ana_f as [|r ana_f']; [simpl in Htwo; lia|].
    assert (Hin : In (Ana.epochNum r) (map fst (grp_by_epoch av_epochNum t))).
    { apply keys_In. rewrite Hkeys. left. auto. }
    destruct (grp_by_epoch av_epochNum t); [inversion Hin|discriminate]. }
  unfold pd_concat. destruct ss as [|s ss]; [tauto|]. cbn [bind]. eauto.
Qed.



Lemma get_group_map (A B : Type) (keyA : A -> Z) (keyB : B -> Z) (f : A -> B)
      (k : Z) (l : list A) :
  (forall x, keyB (f x) = keyA x) ->
  get_group keyB k (map f l) = map f (get_group keyA k l).
Proof.
  intros H. unfold get_group. induction l as [|x l IH]; simpl; auto.
  rewrite H. destruct (keyA x =? k)%Z; simpl; rewrite IH; auto.
Qed.

(** Every epoch of at least [n] rows, decided by running over the keys. *)
Lemma epochs_long_dec (ana_f : list Ana.row) (n : nat) :
  forallb (fun k => n <=? length (get_group Ana.epochNum k ana_f))
          (map Ana.epochNum ana_f) = true ->
  forall k, In k (map Ana.epochNum ana_f) ->
            n <= length (get_group Ana.epochNum k ana_f).
Proof.
  intros H k Hk. rewrite forallb_forall in H.
  apply Nat.leb_le. apply H. exact Hk.
Qed.

(** C8.  The second kinematics stage returns on a table of two epochs or
    more whose epochs have at least 4 frames.  Whenever it returns, its
    rows are the frames of its input, one for one and in order, epoch by
    epoch; for every frame, angVel (the raw one) is the first difference
    of ang within the epoch divided by deltaT, and angAccel is the first
    difference of that raw angVel within the epoch divided by deltaT: the
    smoothed angVel takes no part in it.  angAccel is undefined at the
    first frame of every epoch. *)
Theorem angAccel_from_raw_angVel (norm2 : f64 -> f64 -> f64)
        (ana_f : list Ana.row) :
  (2 <= length (grp_by_epoch Ana.epochNum ana_f) ->
   (forall k, In k (map Ana.epochNum ana_f) ->
              4 <= length (get_group Ana.epochNum k ana_f)) ->
   exists out, kinematics2 norm2 ana_f = Ok out)
  /\ forall out,
      kinematics2 norm2 ana_f = Ok out ->
      map Kin.ana out = ana_f
      /\ (forall k, map Kin.ana (get_group Kin.epochNum k out)
                    = get_group Ana.epochNum k ana_f)
      /\ map Kin.angVel out
         = np_divide (groupby_diff Ana.epochNum Ana.ang ana_f)
                     (map Ana.deltaT ana_f)
      /\ map Kin.angAccel out
         = np_divide (groupby_diff Kin.epochNum Kin.angVel out)
                     (map Kin.deltaT out)
      /\ (forall k,
             map Kin.angAccel (get_group Kin.epochNum k out)
             = np_divide
                 (series_diff (map Kin.angVel (get_group Kin.epochNum k out)))
                 (map Kin.deltaT (get_group Kin.epochNum k out)))
      /\ (forall k r rest,
             get_group Kin.epochNum k out = r :: rest -> Kin.angAccel r = NaN).
Proof.
  split; [apply kinematics2_total|].
  intros out H. destruct (kinematics2_columns _ _ H) as [Hana [Hav Haa]].
  assert (Hlen : length out = length ana_f).
  { rewrite <- Hana. rewrite length_map. auto. }
  assert (HdT : map Kin.deltaT out = map Ana.deltaT ana_f).
  { unfold Kin.deltaT. rewrite <- (map_map Kin.ana Ana.deltaT), Hana. auto. }
  assert (Hkey : map Kin.epochNum out = map Ana.epochNum ana_f).
  { unfold Kin.epochNum. rewrite <- (map_map Kin.ana Ana.epochNum), Hana. auto. }
  assert (Hwhole : map Kin.angAccel out
                   = np_divide (groupby_diff Kin.epochNum Kin.angVel out)
                               (map Kin.deltaT out)).
  { rewrite Haa, HdT. f_equal. apply groupby_diff_from_cols.
    - rewrite Hkey. unfold av_epochNum. rewrite <- (map_map fst Ana.epochNum).
      rewrite map_fst_combine; auto. rewrite angVel_column_length. lia.
    - rewrite Hav. apply map_snd_combine. rewrite angVel_column_length. lia. }
  assert (Hepoch : forall k,
             map Kin.angAccel (get_group Kin.epochNum k out)
             = np_divide (series_diff (map Kin.angVel (get_group Kin.epochNum k out)))
                         (map Kin.deltaT (get_group Kin.epochNum k out))).
  { intros k. rewrite <- !select_map, Hwhole, select_np_divide.
    - rewrite groupby_diff_local, !select_map. auto.
    - rewrite groupby_diff_length, length_map. auto.
    - rewrite !length_map. auto. }
  split; [exact Hana|]. split.
  { intros k. rewrite <- Hana. symmetry.
    apply (@get_group_map _ _ Kin.epochNum Ana.epochNum Kin.ana k out).
    intros x. reflexivity. }
  split; [exact Hav|]. split; [exact Hwhole|]. split; [exact Hepoch|].
  intros k r rest Hg. specialize (Hepoch k). rewrite Hg in Hepoch.
  simpl in Hepoch. injection Hepoch as Hr _. exact Hr.
Qed.

Lemma angAccel_from_raw_angVel_witness :
  2 <= length (grp_by_epoch Ana.epochNum (map Kin.ana kin_jump_second))
  /\ (exists out, kinematics2 norm_axis (map Kin.ana kin_jump_second) = Ok out)
  /\ kinematics2 norm_axis (map Kin.ana kin_jump_second) = Ok kin_jump_second
  /\ map Kin.angAccel kin_jump_second
     = np_divide (groupby_diff Kin.epochNum Kin.angVel kin_jump_second)
                 (map Kin.deltaT kin_jump_second).
Proof.
  assert (Htwo : 2 <= length (grp_by_epoch Ana.epochNum
                                (map Kin.ana kin_jump_second)))
    by (vm_compute; lia).
  destruct (@angAccel_from_raw_angVel norm_axis (map Kin.ana kin_jump_second))
    as [Htot Hval].
  assert (H : kinematics2 norm_axis (map Kin.ana kin_jump_second) = Ok kin_jump_second)
    by (vm_compute; reflexivity).
  split; [exact Htwo|]. split.
  - apply Htot; [exact Htwo|]. apply epochs_long_dec. vm_compute. reflexivity.
  - split; [exact H|]. destruct (Hval _ H) as [_ [_ [_ [Hacc _]]]]. exact Hacc.
Defined.

(* ================================================================= *)
(** * Further properties of the code *)

(* ================================================================= *)
(** ** More on the smoothing function *)

Lemma np_convolve_empty_window (vals : list f64) :
  np_convolve_valid vals (np_ones 0) = Raise ValueError.
Proof.
  unfold np_convolve_valid, np_ones. simpl repeat. simpl length at 2.
  destruct (length vals <? 0) eqn:E; [apply Nat.ltb_lt in E; lia|].
  destruct vals; auto.
Qed.

Lemma smooth_series_ML_even (a : Series) (W : nat) :
  Nat.even W = true -> smooth_series_ML a W = Raise ValueError.
Proof.
  intros Hev. apply Nat.even_spec in Hev. destruct Hev as [m Hm].
  destruct (Nat.lt_ge_cases (length a) W) as [Hlt|Hge];
    [apply smooth_series_ML_short; auto|].
  destruct m as [|m].
  - subst W. unfold smooth_series_ML. simpl Nat.mul.
    rewrite np_convolve_empty_window. reflexivity.
  - assert (Hn : length (values a) = length a) by apply length_map.
    unfold smooth_series_ML.
    rewrite np_convolve_ones by lia. cbn [bind].
    destruct (series_div _ _) as [start|e] eqn:Hs; cbn [bind];
      [|apply series_div_raise in Hs; subst; auto].
    destruct (series_div (stride2 (cumsum_skipna (firstn (W - 1) (rev (values a))))) _)
      as [stop0|e] eqn:Ht; cbn [bind];
      [|apply series_div_raise in Ht; subst; auto].
    apply series_div_length in Hs, Ht.
    rewrite stride2_length_div, cumsum_skipna_length, length_firstn in Hs, Ht.
    rewrite length_rev in Ht.
    unfold pd_Series, index.
    rewrite !length_app, length_rev, !length_map, length_seq, Hs, Ht, Hn.
    replace (Init.Nat.min (W - 1) (length a)) with (W - 1) by lia.
    replace ((W - 1 + 1) / 2) with (S m)
      by (apply (Nat.div_unique (W - 1 + 1) 2 (S m) 0); lia).
    destruct (_ =? _) eqn:E; auto.
    apply Nat.eqb_eq in E. lia.
Qed.

(** X1.  [smooth_series_ML] returns exactly when the window size is odd
    and not larger than the series: the result then carries the index of
    the input and as many values.  For an even window size, for a window
    larger than the series and for an empty series it raises ValueError:
    the three pieces do not add up to the length of the index (or
    [np.convolve] or the division by [r] raises before). *)
Theorem smooth_series_ML_returns_iff (a : Series) (W : nat) :
  if Nat.odd W && (W <=? length a) then
    exists res, smooth_series_ML a W = Ok res
                /\ index res = index a
                /\ length (values res) = length (values a)
  else smooth_series_ML a W = Raise ValueError.
Proof.
  destruct (Nat.odd W) eqn:Hodd; cbn [andb].
  - destruct (W <=? length a) eqn:Hle.
    + apply Nat.leb_le in Hle. apply Nat.odd_spec in Hodd.
      destruct Hodd as [h Hh]. subst W.
      destruct (@smooth_series_ML_total a h Hle) as [res [Hr [Hi Hl]]].
      exists res. split; auto. split; auto.
      unfold values at 2. rewrite length_map. auto.
    + apply Nat.leb_gt in Hle. apply smooth_series_ML_short. auto.
  - apply smooth_series_ML_even. rewrite <- Nat.negb_odd, Hodd. auto.
Qed.

(* ================================================================= *)
(** ** More on grouping *)

Section GroupingMore.

Variable A : Type.
Variable key : A -> Z.

Lemma add_row_concat (r : A) (gs : list (Z * list A)) :
  Permutation (concat (map snd (add_row key r gs))) (concat (map snd gs) ++ [r]).
Proof.
  induction gs as [|[k g] gs IH]; simpl.
  - apply Permutation_refl.
  - destruct (key r =? k)%Z; simpl.
    + rewrite <- !app_assoc. apply Permutation_app_head.
      apply Permutation_app_comm.
    + rewrite <- app_assoc. apply Permutation_app_head. exact IH.
Qed.

Lemma add_row_new (r : A) (gs : list (Z * list A)) :
  ~ In (key r) (map fst gs) -> add_row key r gs = gs ++ [(key r, [r])].
Proof.
  induction gs as [|[k g] gs IH]; simpl; intros Hn; auto.
  destruct (key r =? k)%Z eqn:E.
  - apply Z.eqb_eq in E. exfalso. apply Hn. left. auto.
  - f_equal. apply IH. tauto.
Qed.

Lemma add_row_last (r : A) (gs : list (Z * list A)) (g : list A) :
  ~ In (key r) (map fst gs) ->
  add_row key r (gs ++ [(key r, g)]) = gs ++ [(key r, g ++ [r])].
Proof.
  induction gs as [|[k g'] gs IH]; simpl; intros Hn.
  - rewrite Z.eqb_refl. auto.
  - destruct (key r =? k)%Z eqn:E.
    + apply Z.eqb_eq in E. exfalso. apply Hn. left. auto.
    + f_equal. apply IH. tauto.
Qed.

Lemma fold_add_block (k : Z) (b g : list A) (gs : list (Z * list A)) :
  ~ In k (map fst gs) -> Forall (fun r => key r = k) b ->
  fold_left (fun gs r => add_row key r gs) b (gs ++ [(k, g)])
  = gs ++ [(k, g ++ b)].
Proof.
  intros Hn HF. revert g. induction HF as [|r b Hr HF IH]; intros g; simpl.
  - rewrite app_nil_r. auto.
  - subst k. rewrite add_row_last by auto. rewrite IH.
    rewrite <- app_assoc. auto.
Qed.

Lemma fold_add_blocks (blocks init : list (Z * list A)) :
  NoDup (map fst (init ++ blocks)) ->
  Forall (fun kb => snd kb <> [] /\ Forall (fun r => key r = fst kb) (snd kb)) blocks ->
  fold_left (fun gs r => add_row key r gs) (concat (map snd blocks)) init
  = init ++ blocks.
Proof.
  revert init. induction blocks as [|[k b] blocks IH]; intros init Hnd HF; simpl.
  - rewrite app_nil_r. auto.
  - inversion HF as [|? ? [Hne Hk] HF']; subst. simpl in Hne, Hk.
    rewrite fold_left_app.
    assert (Hnew : ~ In k (map fst init)).
    { rewrite map_app in Hnd. simpl in Hnd.
      apply NoDup_remove_2 in Hnd. intros Hin. apply Hnd.
      apply in_or_app. auto. }
    destruct b as [|r b]; [tauto|].
    inversion Hk as [|? ? Hr Hb]; subst.
    cbn [fold_left]. rewrite add_row_new by auto.
    rewrite fold_add_block by auto.
    change ([r] ++ b) with (r :: b).
    rewrite (IH (init ++ [(key r, r :: b)])).
    + rewrite <- app_assoc. auto.
    + rewrite <- app_assoc. auto.
    + auto.
Qed.

End GroupingMore.

Lemma grp_concat_perm (A : Type) (key : A -> Z) (df : list A) :
  Permutation (concat (map snd (grp_by_epoch key df))) df.
Proof.
  induction df as [|r df IH] using rev_ind.
  - apply Permutation_refl.
  - rewrite grp_snoc. eapply Permutation_trans; [apply add_row_concat|].
    apply Permutation_app_tail. exact IH.
Qed.

(** X5.  [grp_by_epoch] loses and invents no row: its groups put one
    after the other are a permutation of the table.  A table in which
    every epoch is one contiguous block of rows (distinct keys, no empty
    block) is grouped into exactly these blocks, in their order. *)
Theorem grp_by_epoch_regroups (A : Type) (key : A -> Z) :
  (forall df, Permutation (concat (map snd (grp_by_epoch key df))) df)
  /\ (forall blocks : list (Z * list A),
         NoDup (map fst blocks) ->
         Forall (fun kb => snd kb <> []
                           /\ Forall (fun r => key r = fst kb) (snd kb)) blocks ->
         grp_by_epoch key (concat (map snd blocks)) = blocks).
Proof.
  split.
  - apply grp_concat_perm.
  - intros blocks Hnd HF. unfold grp_by_epoch.
    rewrite (@fold_add_blocks _ key blocks []); auto.
Qed.

Lemma grp_by_epoch_regroups_witness :
  grp_by_epoch Raw.epochNum
    (concat (map snd [(5%Z, [raw_frame 5 0 3 0; raw_frame 5 0 3 1]);
                      (2%Z, [raw_frame 2 0 3 2])]))
  = [(5%Z, [raw_frame 5 0 3 0; raw_frame 5 0 3 1]); (2%Z, [raw_frame 2 0 3 2])].
Proof.
  apply (proj2 (grp_by_epoch_regroups Raw.epochNum)).
  - repeat constructor; simpl; intuition discriminate.
  - repeat constructor; simpl; discriminate.
Defined.

(* ================================================================= *)
(** ** More on the filters by group *)

Section FilterMore.

Variable A : Type.
Variable key : A -> Z.

Lemma filter_all (f : A -> bool) (l : list A) :
  (forall x, In x l -> f x = true) -> filter f l = l.
Proof.
  induction l as [|x l IH]; simpl; intros H; auto.
  rewrite H by auto. f_equal. apply IH. auto.
Qed.

(** A table whose epochs all satisfy the predicate passes the filter
    unchanged. *)
Lemma groupby_filter_stable (pred : list A -> result bool) (df : list A) :
  (forall k, In k (map key df) -> pred (get_group key k df) = Ok true) ->
  groupby_filter key pred df = Ok df.
Proof.
  intros H.
  destruct (@groupby_filter_total _ key pred df) as [out Hout].
  { intros k Hk. exists true. auto. }
  rewrite Hout. f_equal.
  destruct (groupby_filter_rows _ _ _ Hout) as [keep [Ho Hk]]. subst out.
  apply filter_all. intros r Hr.
  assert (Hin : In (key r) (map key df)) by (apply in_map; auto).
  specialize (Hk _ Hin). rewrite H in Hk by auto. inversion Hk. auto.
Qed.

(** The epochs of the output of a filter are whole epochs of the input
    on which the predicate is true. *)
Lemma groupby_filter_survivor (pred : list A -> result bool) (df out : list A) (k : Z) :
  groupby_filter key pred df = Ok out ->
  In k (map key out) ->
  In k (map key df)
  /\ get_group key k out = get_group key k df
  /\ pred (get_group key k df) = Ok true.
Proof.
  intros H Hk.
  destruct (@groupby_filter_keys _ key pred df out k H Hk) as [Hk' E].
  split; auto. split; auto.
  apply in_map_iff in Hk. destruct Hk as [r [Hr Hin]]. subst k.
  apply (groupby_filter_In _ _ _ r H) in Hin. tauto.
Qed.

Lemma groupby_filter_idempotent (pred : list A -> result bool) (df out : list A) :
  groupby_filter key pred df = Ok out ->
  groupby_filter key pred out = Ok out.
Proof.
  intros H. apply groupby_filter_stable. intros k Hk.
  destruct (@groupby_filter_survivor pred df out k H Hk) as [_ [E Hp]].
  rewrite E. auto.
Qed.

(** Two filters in a row keep the rows whose epoch, as it is in the
    input, satisfies both predicates. *)
Lemma groupby_filter_twice (p1 p2 : list A -> result bool) (df f1 out : list A) (r : A) :
  groupby_filter key p1 df = Ok f1 ->
  groupby_filter key p2 f1 = Ok out ->
  (In r out <->
   In r df /\ p1 (get_group key (key r) df) = Ok true
   /\ p2 (get_group key (key r) df) = Ok true).
Proof.
  intros H1 H2.
  rewrite (groupby_filter_In _ _ _ r H2), (groupby_filter_In _ _ _ r H1).
  split.
  - intros [[Hin Hp1] Hp2]. split; auto. split; auto.
    assert (Hr : In r f1) by (apply (groupby_filter_In _ _ _ r H1); auto).
    destruct (@groupby_filter_survivor p1 df f1 (key r) H1 (in_map key _ _ Hr))
      as [_ [E _]].
    rewrite <- E. auto.
  - intros [Hin [Hp1 Hp2]]. split; auto.
    assert (Hr : In r f1) by (apply (groupby_filter_In _ _ _ r H1); auto).
    destruct (@groupby_filter_survivor p1 df f1 (key r) H1 (in_map key _ _ Hr))
      as [_ [E _]].
    rewrite E. auto.
Qed.

End FilterMore.

(** *** Thresholds on [np.nanmax] *)

Lemma fleb_notnan (x y : f64) : fleb x y = true -> isnan x = false /\ isnan y = false.
Proof. destruct x, y; simpl; try discriminate; auto. Qed.

Lemma fltb_notnan (x y : f64) : fltb x y = true -> isnan x = false /\ isnan y = false.
Proof. destruct x, y; simpl; try discriminate; auto. Qed.

Lemma fleb_fltb_trans (x m b : f64) :
  fleb x m = true -> fltb m b = true -> fltb x b = true.
Proof.
  destruct x as [p| | |], m as [q| | |], b as [c| | |]; simpl;
    try discriminate; auto.
  intros H1 H2. apply Qle_bool_iff in H1.
  destruct (Qle_bool c q) eqn:E; [discriminate|].
  destruct (Qle_bool c p) eqn:E'; auto.
  apply Qle_bool_iff in E'.
  assert (Hcq : (c <= q)%Q) by (eapply Qle_trans; eauto).
  apply Qle_bool_iff in Hcq. congruence.
Qed.

Lemma np_nanmax_number (l : list f64) :
  (exists x, In x l /\ isnan x = false) ->
  exists m, np_nanmax l = Ok m /\ isnan m = false /\ In m l.
Proof.
  intros [x0 [Hin Hx0]]. unfold np_nanmax.
  destruct l as [|y l']; [inversion Hin|]. set (l := y :: l') in *.
  destruct (filter (fun x => negb (isnan x)) l) as [|x t] eqn:E.
  - exfalso. assert (H : In x0 (filter (fun x => negb (isnan x)) l)).
    { apply filter_In. split; auto. rewrite Hx0. auto. }
    rewrite E in H. inversion H.
  - assert (HF : Forall (fun y => isnan y = false) (x :: t)).
    { rewrite <- E. rewrite Forall_forall. intros z Hz.
      apply filter_In in Hz. destruct Hz as [_ Hz].
      destruct (isnan z); auto; discriminate. }
    inversion HF as [|? ? Hx Ht]; subst.
    destruct (@fold_fmax_is_max t x Hx Ht) as [Hm [Hi _]].
    eexists. split; [reflexivity|]. split; auto.
    rewrite <- E in Hi. apply filter_In in Hi. tauto.
Qed.

(** The largest defined value is at most the bound exactly when some
    value is defined and every defined value is at most the bound. *)
Lemma np_nanmax_le_iff (l : list f64) (b : f64) :
  (exists m, np_nanmax l = Ok m /\ fleb m b = true)
  <-> (exists x, In x l /\ isnan x = false)
      /\ (forall x, In x l -> isnan x = false -> fleb x b = true).
Proof.
  split.
  - intros [m [Hm Hb]]. destruct (@fleb_notnan m b Hb) as [Hn _].
    destruct (@np_nanmax_is_max l m Hm Hn) as [Hin Hall].
    split; [exists m; auto|].
    intros x Hx Hxn. eapply fleb_trans; eauto.
  - intros [Hex Hall]. destruct (@np_nanmax_number l Hex) as [m [Hm [Hn Hin]]].
    exists m. split; auto.
Qed.

Lemma np_nanmax_lt_iff (l : list f64) (b : f64) :
  (exists m, np_nanmax l = Ok m /\ fltb m b = true)
  <-> (exists x, In x l /\ isnan x = false)
      /\ (forall x, In x l -> isnan x = false -> fltb x b = true).
Proof.
  split.
  - intros [m [Hm Hb]]. destruct (@fltb_notnan m b Hb) as [Hn _].
    destruct (@np_nanmax_is_max l m Hm Hn) as [Hin Hall].
    split; [exists m; auto|].
    intros x Hx Hxn. eapply fleb_fltb_trans; eauto.
  - intros [Hex Hall]. destruct (@np_nanmax_number l Hex) as [m [Hm [Hn Hin]]].
    exists m. split; auto.
Qed.

Lemma gap_pred_iff (g : list Ana.row) :
  gap_pred g = Ok true
  <-> (exists x, In x (map Ana.deltaT g) /\ isnan x = false)
      /\ (forall x, In x (map Ana.deltaT g) -> isnan x = false ->
                    fleb x MAX_DELTA_T = true).
Proof.
  rewrite <- np_nanmax_le_iff. unfold gap_pred. split.
  - destruct (np_nanmax (map Ana.deltaT g)) as [m|e]; simpl; [|discriminate].
    intros H. exists m. split; auto. inversion H. auto.
  - intros [m [Hm Hb]]. rewrite Hm. simpl. rewrite Hb. auto.
Qed.

(** X7.  [dur_y_x_filter] always returns, and a row is kept if and only
    if, on the rows of its epoch in the input, some [deltaT] is defined,
    every defined [deltaT] is at most MAX_DELTA_T, and
    (mean of headx - mean of x) * (x of the last frame) >= 0.  The first
    [deltaT] of an epoch is NaN and is ignored by [np.nanmax]. *)
Theorem dur_y_x_filter_keeps (df : list Ana.row) :
  exists out,
    dur_y_x_filter df = Ok out
    /\ forall r,
        In r out <->
        In r df
        /\ (exists x, In x (map Ana.deltaT (get_group Ana.epochNum (Ana.epochNum r) df))
                      /\ isnan x = false)
        /\ (forall x, In x (map Ana.deltaT (get_group Ana.epochNum (Ana.epochNum r) df)) ->
                      isnan x = false -> fleb x MAX_DELTA_T = true)
        /\ fgeb (fmul (fsub (series_mean
                               (map Ana.headx (get_group Ana.epochNum (Ana.epochNum r) df)))
                            (series_mean
                               (map Ana.x (get_group Ana.epochNum (Ana.epochNum r) df))))
                      (Ana.x (last (get_group Ana.epochNum (Ana.epochNum r) df) r)))
                (Fin 0)
           = true.
Proof.
  destruct (dur_y_x_filter_total df) as [out Hout].
  exists out. split; auto. intros r.
  unfold dur_y_x_filter in Hout.
  destruct (groupby_filter Ana.epochNum gap_pred df) as [f1|] eqn:H1;
    simpl in Hout; [|discriminate].
  unfold direction_filter in Hout.
  rewrite (@groupby_filter_twice _ Ana.epochNum gap_pred direction_pred df f1 out r H1 Hout), gap_pred_iff.
  split.
  - intros [Hin [[Hex Hall] Hd]]. split; auto. split; auto. split; auto.
    rewrite (@direction_pred_nonempty _ r) in Hd.
    + inversion Hd. auto.
    + apply get_group_nonempty. apply in_map. auto.
  - intros [Hin [Hex [Hall Hd]]]. split; auto. split; auto.
    rewrite (@direction_pred_nonempty _ r).
    + f_equal. auto.
    + apply get_group_nonempty. apply in_map. auto.
Qed.

(** X6.  The filters by group are idempotent: the duration and fish
    number filter, [dur_y_x_filter] and [displ_dist_vel_filter], run on
    their own output, return it unchanged (a surviving epoch is whole,
    and [displ_dist_vel_filter] does not renumber the index its label
    slice reads). *)
Theorem filters_idempotent :
  (forall db out, dur_fish_filter db = Ok out -> dur_fish_filter out = Ok out)
  /\ (forall df out, dur_y_x_filter df = Ok out -> dur_y_x_filter out = Ok out)
  /\ (forall kin out,
         displ_dist_vel_filter kin = Ok out -> displ_dist_vel_filter out = Ok out).
Proof.
  split; [|split].
  - intros db out H. apply (@groupby_filter_idempotent _ _ _ _ _ H).
  - intros df out H. unfold dur_y_x_filter in *.
    destruct (groupby_filter Ana.epochNum gap_pred df) as [f1|] eqn:H1;
      simpl in H; [|discriminate].
    unfold direction_filter in *.
    rewrite (@groupby_filter_stable _ Ana.epochNum gap_pred out).
    + simpl. apply (@groupby_filter_idempotent _ _ _ _ _ H).
    + intros k Hk.
      destruct (@groupby_filter_survivor _ _ _ _ _ _ H Hk) as [Hk1 [E2 _]].
      destruct (@groupby_filter_survivor _ _ _ _ _ _ H1 Hk1) as [_ [E1 Hp]].
      rewrite E2, E1. auto.
  - intros kin out H. unfold displ_dist_vel_filter in *.
    destruct (groupby_filter Kin.epochNum displ_dist_pred kin) as [f1|] eqn:H1;
      simpl in H; [|discriminate].
    destruct (groupby_filter Kin.epochNum ang_vel_pred f1) as [f2|] eqn:H2;
      simpl in H; [|discriminate].
    rewrite (@groupby_filter_stable _ Kin.epochNum displ_dist_pred out).
    + cbn [bind]. rewrite (@groupby_filter_stable _ Kin.epochNum ang_vel_pred out).
      * cbn [bind]. apply (@groupby_filter_idempotent _ _ _ _ _ H).
      * intros k Hk.
        destruct (@groupby_filter_survivor _ _ _ _ _ _ H Hk) as [Hk2 [E3 _]].
        destruct (@groupby_filter_survivor _ _ _ _ _ _ H2 Hk2) as [_ [E2 Hp]].
        rewrite E3, E2. auto.
    + intros k Hk.
      destruct (@groupby_filter_survivor _ _ _ _ _ _ H Hk) as [Hk2 [E3 _]].
      destruct (@groupby_filter_survivor _ _ _ _ _ _ H2 Hk2) as [Hk1 [E2 _]].
      destruct (@groupby_filter_survivor _ _ _ _ _ _ H1 Hk1) as [_ [E1 Hp]].
      rewrite E3, E2, E1. auto.
Qed.

Lemma filters_idempotent_witness :
  displ_dist_vel_filter (get_group Kin.epochNum 1 kin_jump_first)
  = Ok (get_group Kin.epochNum 1 kin_jump_first).
Proof.
  apply (proj2 (proj2 filters_idempotent) kin_jump_first).
  vm_compute. reflexivity.
Defined.

Lemma get_group_key (A : Type) (key : A -> Z) (k : Z) (df : list A) (r : A) :
  In r (get_group key k df) -> key r = k.
Proof.
  unfold get_group. intros H. apply filter_In in H. destruct H as [_ H].
  apply Z.eqb_eq in H. exact H.
Qed.

(** X9.  [raw_filter] always returns, and an epoch in its output had at
    least MIN_DUR + 2*EPOCH_BUF = 104 frames in the raw table, consists
    of exactly its interior frames (the first two and the last two
    dropped), and every [fishNum] of it that is a number is below
    MAX_FISH. *)
Theorem raw_filter_survivors (raw : list Raw.row) :
  exists out,
    raw_filter raw = Ok out
    /\ forall k,
        In k (map Raw.epochNum out) ->
        100 + 2 * EPOCH_BUF <= length (get_group Raw.epochNum k raw)
        /\ get_group Raw.epochNum k out
           = skipn EPOCH_BUF
               (firstn (length (get_group Raw.epochNum k raw) - EPOCH_BUF)
                       (get_group Raw.epochNum k raw))
        /\ forall r, In r (get_group Raw.epochNum k out) ->
                     isnan (Raw.fishNum r) = false ->
                     fltb (Raw.fishNum r) MAX_FISH = true.
Proof.
  unfold raw_filter.
  destruct (dur_fish_filter_total (del_buf raw)) as [out Hout].
  exists out. split; auto. intros k Hk. unfold dur_fish_filter in Hout.
  destruct (@groupby_filter_survivor _ _ _ _ _ _ Hout Hk) as [_ [E Hp]].
  assert (Ht : get_group Raw.epochNum k (del_buf raw)
               = skipn EPOCH_BUF
                   (firstn (length (get_group Raw.epochNum k raw) - EPOCH_BUF)
                           (get_group Raw.epochNum k raw))).
  { change (del_buf raw) with (trim_from Raw.epochNum EPOCH_BUF [] raw).
    rewrite trim_from_group. simpl count_occ. rewrite Nat.sub_0_r. auto. }
  unfold dur_fish_pred in Hp.
  destruct (Qle_bool MIN_DUR _) eqn:Hd; [|discriminate].
  apply MIN_DUR_frames in Hd.
  split; [|split].
  - rewrite Ht, length_skipn, length_firstn in Hd. unfold EPOCH_BUF in *. lia.
  - rewrite E. exact Ht.
  - rewrite E. intros r Hr Hn.
    destruct (np_nanmax (map Raw.fishNum (get_group Raw.epochNum k (del_buf raw))))
      as [m|e] eqn:Hm; simpl in Hp; [|discriminate].
    assert (Hlt : fltb m MAX_FISH = true) by (inversion Hp; auto).
    assert (Hiff : exists m, np_nanmax (map Raw.fishNum
                                          (get_group Raw.epochNum k (del_buf raw))) = Ok m
                             /\ fltb m MAX_FISH = true) by eauto.
    apply np_nanmax_lt_iff in Hiff. destruct Hiff as [_ Hall].
    apply Hall; auto. apply in_map. auto.
Qed.

Lemma raw_filter_survivors_witness :
  100 + 2 * EPOCH_BUF <= length (get_group Raw.epochNum 1 (steady_epoch 1 0))
  /\ get_group Raw.epochNum 1 (skipn 2 (firstn 102 (steady_epoch 1 0)))
     = skipn EPOCH_BUF
         (firstn (length (get_group Raw.epochNum 1 (steady_epoch 1 0)) - EPOCH_BUF)
                 (get_group Raw.epochNum 1 (steady_epoch 1 0))).
Proof.
  destruct (raw_filter_survivors (steady_epoch 1 0)) as [out [Hout H]].
  assert (E : raw_filter (steady_epoch 1 0) = Ok (skipn 2 (firstn 102 (steady_epoch 1 0))))
    by (vm_compute; reflexivity).
  rewrite E in Hout. injection Hout as Hout. subst out.
  destruct (H 1%Z) as [H1 [H2 _]].
  - vm_compute. left. reflexivity.
  - split; [exact H1|exact H2].
Defined.

(* ================================================================= *)
(** ** The index labels along the pipeline *)

Lemma sublist_map (A B : Type) (f : A -> B) (l1 l2 : list A) :
  sublist l1 l2 -> sublist (map f l1) (map f l2).
Proof.
  induction 1; simpl;
    [apply sublist_nil | apply sublist_skip | apply sublist_keep]; auto.
Qed.

Lemma sublist_Forall (A : Type) (P : A -> Prop) (l1 l2 : list A) :
  sublist l1 l2 -> Forall P l2 -> Forall P l1.
Proof.
  induction 1; intros HF; auto; inversion HF; subst; auto.
Qed.

Lemma sublist_StronglySorted (A : Type) (R : A -> A -> Prop) (l1 l2 : list A) :
  sublist l1 l2 -> StronglySorted R l2 -> StronglySorted R l1.
Proof.
  induction 1; intros HS; auto; inversion HS; subst; auto.
  constructor; auto. eapply sublist_Forall; eauto.
Qed.

Lemma seq_labels_sorted (a n : nat) :
  StronglySorted Z.lt (map Z.of_nat (seq a n))
  /\ Forall (fun l => (Z.of_nat a <= l)%Z) (map Z.of_nat (seq a n)).
Proof.
  revert a. induction n as [|n IH]; intros a; simpl.
  - split; constructor.
  - destruct (IH (S a)) as [HS HF]. split.
    + constructor; auto. eapply Forall_impl; [|exact HF].
      intros l Hl. simpl in Hl. lia.
    + constructor; [lia|]. eapply Forall_impl; [|exact HF].
      intros l Hl. simpl in Hl. lia.
Qed.

Lemma sorted_labels_NoDup (l : list Z) : StronglySorted Z.lt l -> NoDup l.
Proof.
  induction 1 as [|x l HS IH HF]; constructor; auto.
  intros Hin. rewrite Forall_forall in HF. specialize (HF x Hin). lia.
Qed.

Lemma ana_table_labels (rt : list (Z * Raw.row)) :
  map Ana.label (ana_table rt) = map fst rt.
Proof.
  unfold ana_table. rewrite map_map.
  rewrite (map_ext _ (fun p => fst (fst p)))
    by (intros [lr [dt [cx [cy [chx [chy ca]]]]]]; reflexivity).
  rewrite <- (map_map fst fst). rewrite map_fst_combine; auto.
  table_lengths.
Qed.

(** Every row of [ana] is a row of [raw_truncate] with its label, its
    original label and its transferred columns. *)
Lemma ana_table_row (rt : list (Z * Raw.row)) (a : Ana.row) :
  In a (ana_table rt) ->
  exists lr, In lr rt
             /\ Ana.label a = fst lr
             /\ Ana.oriIndex a = Raw.label (snd lr)
             /\ Ana.epochNum a = Raw.epochNum (snd lr)
             /\ Ana.ang a = Raw.ang (snd lr)
             /\ Ana.absy a = Raw.absy (snd lr).
Proof.
  unfold ana_table. intros H. apply in_map_iff in H.
  destruct H as [[lr [dt [cx [cy [chx [chy ca]]]]]] [Ha Hin]].
  apply in_combine_l in Hin. exists lr. subst a. simpl. auto 10.
Qed.

Lemma raw_truncate_rows (raw : list Raw.row) (rt : list (Z * Raw.row)) :
  raw_truncate raw = Ok rt ->
  exists f, raw_filter raw = Ok f
            /\ rt = combine (fresh_labels f) f
            /\ map fst rt = fresh_labels f /\ map snd rt = f.
Proof.
  unfold raw_truncate. destruct (raw_filter raw) as [f|e]; simpl; [|discriminate].
  intros H. inversion H; subst. exists f. split; auto. split; auto.
  unfold fresh_labels. split.
  - apply map_fst_combine. rewrite length_map, length_seq. lia.
  - apply map_snd_combine. rewrite length_map, length_seq. lia.
Qed.

Lemma dur_y_x_filter_sublist (df out : list Ana.row) :
  dur_y_x_filter df = Ok out -> sublist out df.
Proof.
  unfold dur_y_x_filter.
  destruct (groupby_filter Ana.epochNum gap_pred df) as [f1|] eqn:H1;
    simpl; [|discriminate].
  unfold direction_filter. intros H.
  eapply sublist_trans; eapply groupby_filter_sublist; eauto.
Qed.

(** The labels of the table that the second kinematics stage returns
    increase strictly and are not negative. *)
Lemma pipeline_labels (norm2 : f64 -> f64 -> f64) (raw : list Raw.row)
      (rt : list (Z * Raw.row)) (ana_f : list Ana.row) (kin : list Kin.row) :
  raw_truncate raw = Ok rt ->
  dur_y_x_filter (ana_table rt) = Ok ana_f ->
  kinematics2 norm2 ana_f = Ok kin ->
  StronglySorted Z.lt (map Kin.label kin)
  /\ Forall (fun l => (0 <= l)%Z) (map Kin.label kin).
Proof.
  intros Hrt Hf Hk.
  destruct (kinematics2_columns _ _ Hk) as [Hana _].
  assert (E : map Kin.label kin = map Ana.label ana_f).
  { unfold Kin.label. rewrite <- (map_map Kin.ana Ana.label), Hana. auto. }
  rewrite E.
  pose proof (sublist_map Ana.label (dur_y_x_filter_sublist _ Hf)) as Hsub.
  rewrite ana_table_labels in Hsub.
  destruct (raw_truncate_rows _ Hrt) as [f [_ [_ [Hl _]]]].
  rewrite Hl in Hsub. unfold fresh_labels in Hsub.
  destruct (seq_labels_sorted 0 (length f)) as [HS HF].
  split.
  - eapply sublist_StronglySorted; eauto.
  - eapply sublist_Forall; eauto.
Qed.

Lemma get_group_map_sublist (A : Type) (key : A -> Z) (k : Z) (f : A -> Z) (df : list A) :
  sublist (map f (get_group key k df)) (map f df).
Proof. apply sublist_map. apply sublist_filter. Qed.

(** The raw angVel is undefined at the first frame of every epoch. *)
Lemma kinematics2_angVel_first (norm2 : f64 -> f64 -> f64)
      (ana_f : list Ana.row) (kin : list Kin.row) (k : Z)
      (r : Kin.row) (rest : list Kin.row) :
  kinematics2 norm2 ana_f = Ok kin ->
  get_group Kin.epochNum k kin = r :: rest ->
  Kin.angVel r = NaN.
Proof.
  intros H Hg. destruct (kinematics2_columns _ _ H) as [Hana [Hav _]].
  assert (Hlen : length kin = length ana_f).
  { rewrite <- Hana. rewrite length_map. auto. }
  assert (Hkey : map Kin.epochNum kin = map Ana.epochNum ana_f).
  { unfold Kin.epochNum. rewrite <- (map_map Kin.ana Ana.epochNum), Hana. auto. }
  assert (E : map Kin.angVel (get_group Kin.epochNum k kin)
              = np_divide (series_diff (map Ana.ang (get_group Ana.epochNum k ana_f)))
                          (map Ana.deltaT (get_group Ana.epochNum k ana_f))).
  { rewrite <- !select_map, Hav, Hkey. unfold angVel_column.
    rewrite select_np_divide.
    - rewrite groupby_diff_local, !select_map. auto.
    - rewrite groupby_diff_length, length_map. auto.
    - rewrite !length_map. auto. }
  rewrite Hg in E.
  destruct (get_group Ana.epochNum k ana_f) as [|a g].
  - discriminate.
  - simpl in E. injection E as E _. exact E.
Qed.

(** In a group whose labels increase and are not negative the slice
    [loc[1:]] drops the first row when its label is 0 and nothing
    else. *)
Lemma loc_from_1_sorted (r : Kin.row) (rest : list Kin.row) :
  StronglySorted Z.lt (map Kin.label (r :: rest)) ->
  (0 <= Kin.label r)%Z ->
  loc_from_1_angVel (r :: rest)
  = (if (Kin.label r =? 0)%Z then [] else [(Kin.label r, Kin.angVel r)])
      ++ map (fun x => (Kin.label x, Kin.angVel x)) rest.
Proof.
  intros HS H0. simpl in HS. inversion HS as [|? ? _ HF]; subst.
  assert (Hrest : Forall (fun x => (1 <= Kin.label x)%Z) rest).
  { rewrite Forall_forall in *. intros x Hx.
    specialize (HF (Kin.label x) (in_map Kin.label _ _ Hx)). lia. }
  pose proof (loc_from_1_keeps_all Hrest) as E.
  unfold loc_from_1_angVel in *. cbn [filter map].
  destruct (Kin.label r =? 0)%Z eqn:E0.
  - apply Z.eqb_eq in E0. rewrite E0. simpl. exact E.
  - apply Z.eqb_neq in E0.
    replace (1 <=? Kin.label r)%Z with true by (symmetry; apply Z.leb_le; lia).
    cbn [map app]. f_equal. exact E.
Qed.

(** X10.  In [analyze_dlm], the [g.loc[1:,'angVel']] slice of an epoch at
    the angular-velocity predicate: the first [angVel] of the epoch is
    NaN, and the slice is the whole column of the epoch, unless the
    first row of the epoch carries the label 0, in which case that row
    is dropped; the label 0 can only be on the first row of the table. *)
Theorem loc_slice_in_pipeline (norm2 : f64 -> f64 -> f64) (raw : list Raw.row)
        (rt : list (Z * Raw.row)) (ana_f : list Ana.row) (kin f1 : list Kin.row)
        (k : Z) (r : Kin.row) (rest : list Kin.row) :
  raw_truncate raw = Ok rt ->
  dur_y_x_filter (ana_table rt) = Ok ana_f ->
  kinematics2 norm2 ana_f = Ok kin ->
  groupby_filter Kin.epochNum displ_dist_pred kin = Ok f1 ->
  get_group Kin.epochNum k f1 = r :: rest ->
  Kin.angVel r = NaN
  /\ loc_from_1_angVel (r :: rest)
     = (if (Kin.label r =? 0)%Z then [] else [(Kin.label r, NaN)])
         ++ map (fun x => (Kin.label x, Kin.angVel x)) rest
  /\ (Kin.label r = 0%Z -> exists kin', kin = r :: kin').
Proof.
  intros Hrt Hf Hk H1 Hg.
  assert (Hin : In k (map Kin.epochNum f1)).
  { assert (Hr : In r (get_group Kin.epochNum k f1)) by (rewrite Hg; left; auto).
    apply filter_In in Hr. destruct Hr as [Hr Hkr]. apply Z.eqb_eq in Hkr.
    rewrite <- Hkr. apply in_map. auto. }
  destruct (@groupby_filter_survivor _ _ _ _ _ _ H1 Hin) as [_ [E _]].
  rewrite Hg in E. symmetry in E.
  pose proof (@kinematics2_angVel_first norm2 ana_f kin k r rest Hk E) as Hnan.
  destruct (@pipeline_labels norm2 raw rt ana_f kin Hrt Hf Hk) as [HS HF].
  assert (HSg : StronglySorted Z.lt (map Kin.label (r :: rest))).
  { rewrite <- E. eapply sublist_StronglySorted; [|exact HS].
    apply get_group_map_sublist. }
  assert (Hr : In r kin).
  { assert (Hr : In r (get_group Kin.epochNum k kin)) by (rewrite E; left; auto).
    apply filter_In in Hr. tauto. }
  assert (H0 : (0 <= Kin.label r)%Z).
  { rewrite Forall_forall in HF. apply HF. apply in_map. auto. }
  split; auto. split.
  - rewrite loc_from_1_sorted by auto. rewrite Hnan. auto.
  - intros Hz. destruct kin as [|r0 kin']; [inversion Hr|].
    destruct Hr as [Hr|Hr]; [subst; eauto|].
    exfalso. simpl in HS, HF. inversion HS as [|? ? _ Hlt]; subst.
    inversion HF as [|? ? H00 _]; subst.
    rewrite Forall_forall in Hlt.
    specialize (Hlt (Kin.label r) (in_map Kin.label _ _ Hr)). lia.
Qed.


Lemma loc_slice_in_pipeline_witness :
  exists r rest,
    get_group Kin.epochNum 2 kin_jump_second = r :: rest
    /\ Kin.angVel r = NaN
    /\ loc_from_1_angVel (r :: rest)
       = (if (Kin.label r =? 0)%Z then [] else [(Kin.label r, NaN)])
           ++ map (fun x => (Kin.label x, Kin.angVel x)) rest.
Proof.
  destruct (get_group Kin.epochNum 2 kin_jump_second) as [|r rest] eqn:Hg;
    [vm_compute in Hg; discriminate|].
  exists r, rest. split; [reflexivity|].
  destruct (@loc_slice_in_pipeline norm_axis raw_jump_second
              (rows_of (raw_truncate raw_jump_second))
              (rows_of (dur_y_x_filter
                          (ana_table (rows_of (raw_truncate raw_jump_second)))))
              kin_jump_second kin_jump_second 2%Z r rest)
    as [H1 [H2 _]]; try (vm_compute; reflexivity); auto.
Defined.

(** X8.  [displ_dist_vel_filter] on a table whose index labels increase
    (as they do in [analyze_dlm]): the first step always returns; the
    filter returns if and only if every epoch that passes the first step
    has at least SM_WINDOW_FOR_FILTER = 9 values in its [loc[1:]] slice;
    and when it returns, a row is kept if and only if its epoch, as it
    stands in the input, passes all three predicates. *)
Theorem displ_dist_vel_filter_keeps (kin : list Kin.row) :
  StronglySorted Z.lt (map Kin.label kin) ->
  exists f1,
    groupby_filter Kin.epochNum displ_dist_pred kin = Ok f1
    /\ ((exists out, displ_dist_vel_filter kin = Ok out)
        <-> forall k, In k (map Kin.epochNum f1) ->
                      9 <= length (loc_from_1_angVel (get_group Kin.epochNum k kin)))
    /\ forall out,
        displ_dist_vel_filter kin = Ok out ->
        forall r,
          In r out <->
          In r kin
          /\ displ_dist_pred (get_group Kin.epochNum (Kin.epochNum r) kin) = Ok true
          /\ ang_vel_pred (get_group Kin.epochNum (Kin.epochNum r) kin) = Ok true
          /\ ang_accel_pred (get_group Kin.epochNum (Kin.epochNum r) kin) = Ok true.
Proof.
  intros _.
  destruct (@groupby_filter_total _ Kin.epochNum displ_dist_pred kin) as [f1 H1].
  { intros k Hk. apply displ_dist_pred_total. apply get_group_nonempty. auto. }
  exists f1. split; auto. unfold displ_dist_vel_filter. rewrite H1. cbn [bind].
  split; [split|].
  - intros [out Hout] k Hk.
    destruct (@groupby_filter_survivor _ _ _ _ _ _ H1 Hk) as [_ [E _]].
    rewrite <- E.
    destruct (Nat.lt_ge_cases (length (loc_from_1_angVel (get_group Kin.epochNum k f1))) 9)
      as [Hlt|Hge]; auto.
    exfalso.
    destruct (@groupby_filter_raise _ Kin.epochNum ang_vel_pred f1 k ValueError Hk)
      as [e He].
    { apply ang_vel_pred_short. exact Hlt. }
    rewrite He in Hout. simpl in Hout. discriminate.
  - intros Hall.
    destruct (@groupby_filter_total _ Kin.epochNum ang_vel_pred f1) as [f2 H2].
    { intros k Hk.
      destruct (@groupby_filter_survivor _ _ _ _ _ _ H1 Hk) as [_ [E _]].
      rewrite E. apply ang_vel_pred_total. auto. }
    rewrite H2. cbn [bind]. apply groupby_filter_total.
    intros k Hk. apply ang_accel_pred_total. apply get_group_nonempty. auto.
  - intros out Hout r.
    destruct (groupby_filter Kin.epochNum ang_vel_pred f1) as [f2|] eqn:H2;
      simpl in Hout; [|discriminate].
    rewrite (groupby_filter_In _ _ _ r Hout).
    rewrite (@groupby_filter_twice _ Kin.epochNum displ_dist_pred ang_vel_pred
               kin f1 f2 r H1 H2).
    split.
    + intros [[Hin [Hp1 Hp2]] Hp3]. split; auto. split; auto. split; auto.
      assert (Hr2 : In r f2).
      { apply (@groupby_filter_twice _ Kin.epochNum displ_dist_pred ang_vel_pred
                 kin f1 f2 r H1 H2). auto. }
      destruct (@groupby_filter_survivor _ _ _ _ _ _ H2 (in_map Kin.epochNum _ _ Hr2))
        as [Hk1 [E2 _]].
      destruct (@groupby_filter_survivor _ _ _ _ _ _ H1 Hk1) as [_ [E1 _]].
      rewrite <- E1, <- E2. auto.
    + intros [Hin [Hp1 [Hp2 Hp3]]]. split; auto.
      assert (Hr2 : In r f2).
      { apply (@groupby_filter_twice _ Kin.epochNum displ_dist_pred ang_vel_pred
                 kin f1 f2 r H1 H2). auto. }
      destruct (@groupby_filter_survivor _ _ _ _ _ _ H2 (in_map Kin.epochNum _ _ Hr2))
        as [Hk1 [E2 _]].
      destruct (@groupby_filter_survivor _ _ _ _ _ _ H1 Hk1) as [_ [E1 _]].
      rewrite E2, E1. auto.
Qed.

Lemma displ_dist_vel_filter_keeps_witness :
  StronglySorted Z.lt (map Kin.label kin_jump_first)
  /\ displ_dist_vel_filter kin_jump_first = Ok (get_group Kin.epochNum 1 kin_jump_first)
  /\ displ_dist_pred (get_group Kin.epochNum 1 kin_jump_first) = Ok true
  /\ ang_vel_pred (get_group Kin.epochNum 1 kin_jump_first) = Ok true
  /\ ang_accel_pred (get_group Kin.epochNum 1 kin_jump_first) = Ok true.
Proof.
  assert (Hne : exists r, In r (get_group Kin.epochNum 1 kin_jump_first)).
  { destruct (get_group Kin.epochNum 1 kin_jump_first) as [|r rest] eqn:Hg;
      [vm_compute in Hg; discriminate|].
    exists r. left. reflexivity. }
  destruct Hne as [r Hr].
  assert (Hk : Kin.epochNum r = 1%Z).
  { exact (@get_group_key _ Kin.epochNum 1%Z kin_jump_first r Hr). }
  assert (Hs : StronglySorted Z.lt (map Kin.label kin_jump_first)).
  { apply (@pipeline_labels norm_axis raw_jump_first
             (rows_of (raw_truncate raw_jump_first))
             (rows_of (dur_y_x_filter
                         (ana_table (rows_of (raw_truncate raw_jump_first)))))
             kin_jump_first); vm_compute; reflexivity. }
  assert (E : displ_dist_vel_filter kin_jump_first
              = Ok (get_group Kin.epochNum 1 kin_jump_first))
    by (vm_compute; reflexivity).
  split; [exact Hs|]. split; [exact E|].
  destruct (@displ_dist_vel_filter_keeps kin_jump_first Hs) as [f1 [_ [_ H]]].
  destruct (proj1 (H _ E r) Hr) as [_ Hp]. rewrite Hk in Hp. exact Hp.
Defined.

(* ================================================================= *)
(** ** Where the filtered rows come from *)

Lemma raw_filter_sublist (raw out : list Raw.row) :
  raw_filter raw = Ok out -> sublist out raw.
Proof.
  unfold raw_filter, dur_fish_filter. intros H.
  eapply sublist_trans; [eapply groupby_filter_sublist; eauto|].
  apply boolean_index_sublist.
Qed.

Lemma displ_dist_vel_filter_sublist (kin out : list Kin.row) :
  displ_dist_vel_filter kin = Ok out -> sublist out kin.
Proof.
  unfold displ_dist_vel_filter. intros H.
  destruct (groupby_filter Kin.epochNum displ_dist_pred kin) as [f1|] eqn:H1;
    simpl in H; [|discriminate].
  destruct (groupby_filter Kin.epochNum ang_vel_pred f1) as [f2|] eqn:H2;
    simpl in H; [|discriminate].
  eapply sublist_trans; [eapply groupby_filter_sublist; eauto|].
  eapply sublist_trans; eapply groupby_filter_sublist; eauto.
Qed.

Lemma analyze_dlm_filtered_stages (norm2 : f64 -> f64 -> f64) (raw : list Raw.row)
      (out : list Kin.row) :
  analyze_dlm_filtered norm2 raw = Ok out ->
  exists rt ana_f kin,
    raw_truncate raw = Ok rt
    /\ dur_y_x_filter (ana_table rt) = Ok ana_f
    /\ kinematics2 norm2 ana_f = Ok kin
    /\ displ_dist_vel_filter kin = Ok out.
Proof.
  unfold analyze_dlm_filtered. intros H.
  destruct (raw_truncate raw) as [rt|] eqn:Hrt; simpl in H; [|discriminate].
  destruct (dur_y_x_filter (ana_table rt)) as [ana_f|] eqn:Hf; simpl in H;
    [|discriminate].
  destruct (kinematics2 norm2 ana_f) as [kin|] eqn:Hk; simpl in H; [|discriminate].
  exists rt, ana_f, kin. auto.
Qed.

Lemma filtered_row_frame (norm2 : f64 -> f64 -> f64) (raw : list Raw.row)
      (out : list Kin.row) (row : Kin.row) :
  analyze_dlm_filtered norm2 raw = Ok out -> In row out ->
  exists fr, In fr raw /\ frame_of row fr.
Proof.
  intros H Hin.
  destruct (analyze_dlm_filtered_stages _ _ H) as [rt [ana_f [kin [Hrt [Hf [Hk Hd]]]]]].
  assert (Hkin : In row kin).
  { eapply sublist_In; [eapply displ_dist_vel_filter_sublist; eauto|auto]. }
  destruct (kinematics2_columns _ _ Hk) as [Hana _].
  assert (Ha : In (Kin.ana row) ana_f).
  { rewrite <- Hana. apply in_map. auto. }
  assert (Ha' : In (Kin.ana row) (ana_table rt)).
  { eapply sublist_In; [eapply dur_y_x_filter_sublist; eauto|auto]. }
  destruct (ana_table_row _ _ Ha') as [lr [Hlr [_ [Ho [He [Hang Hy]]]]]].
  destruct (raw_truncate_rows _ Hrt) as [f [Hrf [_ [_ Hs]]]].
  exists (snd lr). split.
  - eapply sublist_In; [eapply raw_filter_sublist; eauto|].
    rewrite <- Hs. apply in_map. auto.
  - unfold frame_of, Kin.epochNum. auto.
Qed.

Lemma filter_none (A : Type) (f : A -> bool) (l : list A) :
  (forall x, In x l -> f x = false) -> filter f l = [].
Proof.
  induction l as [|x l IH]; simpl; intros H; auto.
  rewrite H by auto. apply IH. auto.
Qed.

Lemma filter_label_unique (raw : list Raw.row) (fr : Raw.row) :
  NoDup (map Raw.label raw) -> In fr raw ->
  filter (fun r => (Raw.label r =? Raw.label fr)%Z) raw = [fr].
Proof.
  induction raw as [|r raw IH]; simpl; intros Hnd Hin; [tauto|].
  inversion Hnd as [|? ? Hnot Hnd']; subst.
  destruct Hin as [Heq|Hin].
  - subst r. rewrite Z.eqb_refl. f_equal.
    apply filter_none. intros x Hx.
    destruct (Raw.label x =? Raw.label fr)%Z eqn:E; auto.
    apply Z.eqb_eq in E. exfalso. apply Hnot. rewrite <- E. apply in_map. auto.
  - destruct (Raw.label r =? Raw.label fr)%Z eqn:E.
    + apply Z.eqb_eq in E. exfalso. apply Hnot. rewrite E. apply in_map. auto.
    + apply IH; auto.
Qed.

Lemma loc_fishLen_frames (raw : list Raw.row) (rows : list Kin.row) :
  NoDup (map Raw.label raw) ->
  (forall row, In row rows -> exists fr, In fr raw /\ frame_of row fr) ->
  exists frames,
    Forall2 (fun row fr => In fr raw /\ frame_of row fr) rows frames
    /\ loc_fishLen raw (map (fun r => Ana.oriIndex (Kin.ana r)) rows)
       = Some (map Raw.fishLen frames).
Proof.
  intros Hnd. induction rows as [|row rows IH]; intros H.
  - exists []. split; [constructor|reflexivity].
  - destruct IH as [frames [HF Hl]]; [intros; apply H; right; auto|].
    destruct (H row (or_introl eq_refl)) as [fr [Hin Hfr]].
    exists (fr :: frames). split; [constructor; auto|].
    cbn [map loc_fishLen]. destruct Hfr as [Hlab Hrest]. rewrite <- Hlab.
    rewrite filter_label_unique by auto. rewrite Hl. reflexivity.
Qed.

(** X11.  [ana_ff['fishLen'] = raw.loc[ana_ff['oriIndex'],'fishLen'].values]:
    when the labels of [raw] are distinct, the lookup raises no KeyError,
    returns one value per filtered row, and the value is the [fishLen]
    of the raw frame the row was computed from (same label, epoch, [ang]
    and [absy]). *)
Theorem fishLen_of_own_frame (norm2 : f64 -> f64 -> f64) (raw : list Raw.row)
        (out : list Kin.row) :
  analyze_dlm_filtered norm2 raw = Ok out ->
  NoDup (map Raw.label raw) ->
  exists frames,
    Forall2 (fun row fr => In fr raw /\ frame_of row fr) out frames
    /\ assign_fishLen raw out = Assigned (combine out (map Raw.fishLen frames)).
Proof.
  intros H Hnd.
  destruct (@loc_fishLen_frames raw out Hnd) as [frames [HF Hl]].
  { intros row Hrow. eapply filtered_row_frame; eauto. }
  exists frames. split; auto.
  unfold assign_fishLen. rewrite Hl, length_map.
  rewrite <- (Forall2_length HF), Nat.eqb_refl. reflexivity.
Qed.

Lemma fishLen_of_own_frame_witness :
  exists frames,
    Forall2 (fun row fr => In fr raw_jump_second /\ frame_of row fr)
            (rows_of (analyze_dlm_filtered norm_axis raw_jump_second)) frames
    /\ assign_fishLen raw_jump_second
         (rows_of (analyze_dlm_filtered norm_axis raw_jump_second))
       = Assigned (combine (rows_of (analyze_dlm_filtered norm_axis raw_jump_second))
                           (map Raw.fishLen frames)).
Proof.
  apply (@fishLen_of_own_frame norm_axis).
  - vm_compute. reflexivity.
  - assert (E : map Raw.label raw_jump_second = map Z.of_nat (seq 0 208))
      by (vm_compute; reflexivity).
    rewrite E. apply sorted_labels_NoDup. apply seq_labels_sorted.
Defined.

(* ================================================================= *)
(** ** No surviving epoch *)

Lemma raw_filter_short_epochs (raw : list Raw.row) :
  (forall k, length (get_group Raw.epochNum k raw) < 100 + 2 * EPOCH_BUF) ->
  raw_filter raw = Ok [].
Proof.
  intros Hshort. unfold raw_filter.
  destruct (dur_fish_filter_total (del_buf raw)) as [out Hout].
  rewrite Hout. f_equal. destruct out as [|row out']; auto. exfalso.
  unfold dur_fish_filter in Hout.
  destruct (@groupby_filter_survivor _ Raw.epochNum dur_fish_pred (del_buf raw)
              (row :: out') (Raw.epochNum row) Hout (or_introl eq_refl))
    as [_ [_ Hp]].
  unfold dur_fish_pred in Hp.
  destruct (Qle_bool MIN_DUR _) eqn:Hd; [|discriminate].
  apply MIN_DUR_frames in Hd.
  change (del_buf raw) with (trim_from Raw.epochNum EPOCH_BUF [] raw) in Hd.
  rewrite trim_from_group, length_skipn, length_firstn in Hd.
  simpl count_occ in Hd.
  specialize (Hshort (Raw.epochNum row)). unfold EPOCH_BUF in *. lia.
Qed.

(** X13.  [analyze_dlm] raises when no epoch survives the first two
    filters (the assignment of [displ] fails on the empty table), in
    particular when every epoch of the raw table has fewer than 104
    frames. *)
Theorem analyze_dlm_raises_without_survivors (norm2 : f64 -> f64 -> f64)
        (raw : list Raw.row) :
  (forall rt, raw_truncate raw = Ok rt ->
              dur_y_x_filter (ana_table rt) = Ok [] ->
              exists e, analyze_dlm_filtered norm2 raw = Raise e)
  /\ ((forall k, length (get_group Raw.epochNum k raw) < 100 + 2 * EPOCH_BUF) ->
      exists e, analyze_dlm_filtered norm2 raw = Raise e).
Proof.
  split.
  - intros rt Hrt Hf. unfold analyze_dlm_filtered. rewrite Hrt. cbn [bind].
    rewrite Hf. cbn [bind]. exists ValueError. reflexivity.
  - intros Hshort. unfold analyze_dlm_filtered, raw_truncate.
    rewrite (raw_filter_short_epochs raw Hshort). exists ValueError. reflexivity.
Qed.

Lemma analyze_dlm_raises_without_survivors_witness :
  (exists e, analyze_dlm_filtered norm_axis one_fish_epoch = Raise e)
  /\ (exists e, analyze_dlm_filtered norm_axis two_epochs = Raise e).
Proof.
  split.
  - apply (proj1 (analyze_dlm_raises_without_survivors norm_axis one_fish_epoch) []);
      vm_compute; reflexivity.
  - apply (proj2 (analyze_dlm_raises_without_survivors norm_axis two_epochs)).
    intros k.
    eapply Nat.le_lt_trans; [apply filter_length_le|]. vm_compute. lia.
Defined.



(* ================================================================= *)
(** ** The stored smoothed angular velocity *)

Lemma smooth_series_ML_Ok_index (a res : Series) (W : nat) :
  smooth_series_ML a W = Ok res ->
  index res = index a /\ length (values res) = length a.
Proof.
  intros H. destruct (Nat.odd W) eqn:Hodd.
  - destruct (Nat.lt_ge_cases (length a) W) as [Hlt|Hge].
    + rewrite smooth_series_ML_short in H by auto. discriminate.
    + apply Nat.odd_spec in Hodd. destruct Hodd as [h Hh]. subst W.
      destruct (@smooth_series_ML_total a h Hge) as [res' [Hr Hi]].
      rewrite H in Hr. inversion Hr; subst. auto.
  - rewrite smooth_series_ML_even in H; [discriminate|].
    rewrite <- Nat.negb_odd, Hodd. auto.
Qed.

Lemma series_get_notin (l : Z) (s : Series) :
  ~ In l (index s) -> series_get l s = NaN.
Proof.
  induction s as [|[l' v] s IH]; simpl; intros Hn; auto.
  destruct (l =? l')%Z eqn:E.
  - apply Z.eqb_eq in E. exfalso. apply Hn. left. auto.
  - apply IH. tauto.
Qed.

Lemma series_get_In (l : Z) (v : f64) (s : Series) :
  NoDup (index s) -> In (l, v) s -> series_get l s = v.
Proof.
  induction s as [|[l' v'] s IH]; simpl; intros Hnd Hin; [tauto|].
  inversion Hnd as [|? ? Hnot Hnd']; subst.
  destruct Hin as [Heq|Hin].
  - inversion Heq; subst. rewrite Z.eqb_refl. auto.
  - destruct (l =? l')%Z eqn:E.
    + apply Z.eqb_eq in E. subst. exfalso. apply Hnot.
      apply (in_map fst) in Hin. auto.
    + apply IH; auto.
Qed.

Lemma series_get_incl (s sm : Series) :
  NoDup (index sm) -> incl s sm ->
  map (fun l => series_get l sm) (index s) = values s.
Proof.
  intros Hnd. induction s as [|[l v] s IH]; intros Hi; simpl; auto.
  rewrite (@series_get_In l v sm Hnd) by (apply Hi; left; auto).
  f_equal. apply IH. intros x Hx. apply Hi. right. auto.
Qed.

Lemma sublist_NoDup (A : Type) (l1 l2 : list A) :
  sublist l1 l2 -> NoDup l2 -> NoDup l1.
Proof.
  induction 1 as [|x l1 l2 Hs IH|x l1 l2 Hs IH]; intros Hnd; auto;
    inversion Hnd; subst; auto.
  constructor; auto. intros Hin. eapply sublist_In in Hin; eauto.
Qed.

Lemma sublist_app (A : Type) (a b c d : list A) :
  sublist a b -> sublist c d -> sublist (a ++ c) (b ++ d).
Proof.
  induction 1 as [|x l1 l2 Hs IH|x l1 l2 Hs IH]; intros Hcd; simpl.
  - exact Hcd.
  - apply sublist_skip. apply IH. exact Hcd.
  - apply sublist_keep. apply IH. exact Hcd.
Qed.

Lemma sublist_skipn (A : Type) (n : nat) (l : list A) : sublist (skipn n l) l.
Proof.
  revert l. induction n as [|n IH]; intros [|x l]; simpl;
    try apply sublist_refl. apply sublist_skip. apply IH.
Qed.

Lemma concat_tails_sublist (A : Type) (LL : list (list A)) :
  sublist (concat (map (skipn 1) LL)) (concat LL).
Proof.
  induction LL as [|L LL IH]; simpl.
  - apply sublist_nil.
  - apply sublist_app; auto. apply (sublist_skipn 1).
Qed.

Lemma NoDup_app_disjoint (A : Type) (l1 l2 : list A) (x : A) :
  NoDup (l1 ++ l2) -> In x l1 -> ~ In x l2.
Proof.
  induction l1 as [|y l1 IH]; simpl; intros Hnd Hin; [tauto|].
  inversion Hnd as [|? ? Hnot Hnd']; subst.
  destruct Hin as [Heq|Hin].
  - subst. intros H2. apply Hnot. apply in_or_app. auto.
  - apply IH; auto.
Qed.

(** The first element of a list of a duplicate-free partition is in
    none of the tails. *)
Lemma head_not_in_tails (A : Type) (LL : list (list A)) (h : A) (T : list A) :
  NoDup (concat LL) -> In (h :: T) LL ->
  ~ In h (concat (map (skipn 1) LL)).
Proof.
  induction LL as [|L LL IH]; simpl; intros Hnd Hin; [tauto|].
  intros Hh. apply in_app_or in Hh.
  destruct Hin as [Heq|Hin].
  - subst L. simpl in Hnd, Hh. inversion Hnd as [|? ? Hnot _]; subst.
    apply Hnot. apply in_or_app. destruct Hh as [Hh|Hh]; auto.
    right. eapply sublist_In; [apply concat_tails_sublist|]. auto.
  - destruct Hh as [Hh|Hh].
    + assert (Hh' : In h L)
        by (eapply sublist_In; [apply (sublist_skipn 1 L)|exact Hh]).
      apply (@NoDup_app_disjoint _ L (concat LL) h Hnd Hh').
      apply in_concat. exists (h :: T). split; auto. left. auto.
    + apply NoDup_app_remove_l in Hnd. apply (IH Hnd Hin Hh).
Qed.

Lemma smoothed_groups_each (gs : list (Z * list (Ana.row * f64))) (ss : list Series) :
  smoothed_groups gs = Ok ss ->
  Forall2 (fun kg s => smoothed_of_group (snd kg) = Ok s) gs ss.
Proof.
  revert ss. induction gs as [|[k g] gs IH]; intros ss H; cbn [smoothed_groups] in H.
  - inversion H. constructor.
  - destruct (smoothed_of_group g) as [s|] eqn:Hs; cbn [bind] in H; [|discriminate].
    destruct (smoothed_groups gs) as [ss'|]; cbn [bind] in H; [|discriminate].
    inversion H; subst. constructor; auto.
Qed.

Lemma Forall2_In_l (A B : Type) (P : A -> B -> Prop) (l1 : list A) (l2 : list B) (x : A) :
  Forall2 P l1 l2 -> In x l1 -> exists y, In y l2 /\ P x y.
Proof.
  induction 1 as [|a b l1 l2 Hab HF IH]; simpl; intros Hin; [tauto|].
  destruct Hin as [Heq|Hin].
  - subst. exists b. auto.
  - destruct (IH Hin) as [y [Hy Hp]]. exists y. auto.
Qed.

Lemma smoothed_indices (gs : list (Z * list (Ana.row * f64))) (ss : list Series) :
  Forall2 (fun kg s => smoothed_of_group (snd kg) = Ok s) gs ss ->
  map index ss
  = map (skipn 1) (map (fun kg => map (fun p => Ana.label (fst p)) (snd kg)) gs).
Proof.
  induction 1 as [|[k g] s gs ss Hs HF IH]; simpl; auto.
  f_equal; auto. unfold smoothed_of_group in Hs. simpl in Hs.
  destruct (smooth_series_ML_Ok_index _ _ Hs) as [Hi _].
  rewrite Hi. unfold index. rewrite map_map. destruct g; reflexivity.
Qed.

Lemma combine_maps (A B C : Type) (f : A -> B) (g : A -> C) (l : list A) :
  combine (map f l) (map g l) = map (fun x => (f x, g x)) l.
Proof. induction l as [|x l IH]; simpl; auto. rewrite IH. auto. Qed.

Lemma kinematics2_smoothed (norm2 : f64 -> f64 -> f64) (ana_f : list Ana.row)
      (out : list Kin.row) :
  kinematics2 norm2 ana_f = Ok out ->
  exists ss,
    smoothed_groups (grp_by_epoch av_epochNum (combine ana_f (angVel_column ana_f)))
    = Ok ss
    /\ map Kin.angVelSmoothed out = align (concat ss) (map Ana.label ana_f).
Proof.
  unfold kinematics2. fold (angVel_column ana_f).
  destruct (displ_column norm2 ana_f) as [displ|e] eqn:Hd; cbn [bind];
    [|discriminate].
  apply displ_column_Ok in Hd. destruct Hd as [Hd _]. subst displ.
  destruct (smoothed_groups _) as [ss|e]; cbn [bind]; [|discriminate].
  unfold pd_concat. destruct ss as [|s0 ss0] eqn:Ess; cbn [bind]; [discriminate|].
  rewrite <- Ess. intros H. injection H as H. subst out.
  exists ss. split; auto. rewrite !map_map.
  pose proof (angVel_column_length ana_f) as Hav.
  rewrite (map_ext _ (fun p => fst (snd (snd (snd (snd (snd (snd p))))))))
    by (intros [r [vx [vy [ds [dp [av [avs aa]]]]]]]; reflexivity).
  rewrite <- (map_map (fun p => snd (snd (snd (snd (snd (snd p)))))) fst).
  rewrite <- (map_map (fun p => snd (snd (snd (snd (snd p))))) snd).
  rewrite <- (map_map (fun p => snd (snd (snd (snd p)))) snd).
  rewrite <- (map_map (fun p => snd (snd (snd p))) snd).
  rewrite <- (map_map (fun p => snd (snd p)) snd).
  rewrite <- (map_map snd snd).
  rewrite !map_snd_combine, map_fst_combine; auto;
    rewrite ?length_combine, ?np_divide_length, ?align_length, ?length_map,
      ?length_combine, ?groupby_diff_length, ?length_combine, ?length_map,
      ?groupby_diff_length, ?length_map; lia.
Qed.

Lemma index_concat (ss : list Series) :
  index (concat ss) = concat (map index ss).
Proof. unfold index. apply concat_map. Qed.

Lemma grp_member (A : Type) (key : A -> Z) (df : list A) (k : Z) :
  get_group key k df <> [] ->
  In (k, get_group key k df) (grp_by_epoch key df).
Proof.
  intros Hne.
  assert (Hk : In k (map key df)).
  { destruct (get_group key k df) as [|x g] eqn:E; [tauto|].
    assert (Hx : In x (get_group key k df)) by (rewrite E; left; auto).
    unfold get_group in Hx. apply filter_In in Hx. destruct Hx as [Hx Hkx].
    apply Z.eqb_eq in Hkx. subst k. apply in_map. auto. }
  apply (proj2 (keys_In key df k)) in Hk.
  apply in_map_iff in Hk. destruct Hk as [[k' g] [Hk' Hin]]. simpl in Hk'. subst k'.
  destruct (grp_entry key df k g Hin) as [Hg _]. subst g. auto.
Qed.

(** X12.  The stored [angVelSmoothed] of an epoch, for distinct index
    labels: NaN at the first frame of the epoch, and on the other frames
    the smoothing (window SM_WINDOW_FOR_ANGVEL = 3) of the [angVel] of
    these frames alone, [g.tail(len(g)-1)], whatever the position of the
    epoch in the table.  The concatenated series finds its rows by index
    label. *)
Theorem angVelSmoothed_of_epoch (norm2 : f64 -> f64 -> f64) (ana_f : list Ana.row)
      (out : list Kin.row) (k : Z) (r : Kin.row) (rest : list Kin.row) :
  kinematics2 norm2 ana_f = Ok out ->
  NoDup (map Ana.label ana_f) ->
  get_group Kin.epochNum k out = r :: rest ->
  exists s,
    smooth_series_ML (map (fun x => (Kin.label x, Kin.angVel x)) rest)
                     SM_WINDOW_FOR_ANGVEL = Ok s
    /\ index s = map Kin.label rest
    /\ map Kin.angVelSmoothed (r :: rest) = NaN :: values s.
Proof.
  intros Hk Hnd Hg.
  destruct (kinematics2_columns norm2 ana_f Hk) as [Hana [Hav _]].
  destruct (kinematics2_smoothed norm2 ana_f Hk) as [ss [Hss Hcol]].
  set (phi := fun x : Kin.row => (Kin.ana x, Kin.angVel x)).
  assert (Ht : combine ana_f (angVel_column ana_f) = map phi out)
    by (rewrite <- Hav; rewrite <- Hana at 1; apply combine_maps).
  rewrite Ht in Hss.
  set (gs := grp_by_epoch av_epochNum (map phi out)) in *.
  pose proof (@smoothed_groups_each gs ss Hss) as HF.
  pose proof (@smoothed_indices gs ss HF) as Hidx.
  set (lab := fun p : Ana.row * f64 => Ana.label (fst p)) in *.
  (* the group of [k] *)
  assert (Hgk : get_group av_epochNum k (map phi out) = map phi (r :: rest)).
  { rewrite <- Hg. apply get_group_map. intros x. reflexivity. }
  assert (Hin : In (k, map phi (r :: rest)) gs).
  { rewrite <- Hgk. apply grp_member. rewrite Hgk. discriminate. }
  destruct (@Forall2_In_l _ _ _ _ _ _ HF Hin) as [s [Hs Hsm]].
  unfold smoothed_of_group in Hsm. cbn [snd map skipn] in Hsm.
  rewrite map_map in Hsm. cbn [phi fst snd] in Hsm.
  fold Kin.label in Hsm.
  assert (Hsm' : smooth_series_ML (map (fun x => (Kin.label x, Kin.angVel x)) rest)
                                  SM_WINDOW_FOR_ANGVEL = Ok s) by exact Hsm.
  destruct (smooth_series_ML_Ok_index _ _ Hsm') as [Hi _].
  assert (Hi' : index s = map Kin.label rest).
  { rewrite Hi. unfold index. rewrite map_map. reflexivity. }
  exists s. split; [exact Hsm'|]. split; [exact Hi'|].
  (* labels are distinct across the groups *)
  assert (HndLL : NoDup (concat (map (fun kg => map lab (snd kg)) gs))).
  { rewrite <- (map_map snd (map lab)), <- concat_map.
    eapply Permutation_NoDup.
    - apply Permutation_sym. apply Permutation_map. apply grp_concat_perm.
    - rewrite map_map. cbn [lab phi fst]. rewrite <- (map_map Kin.ana Ana.label), Hana.
      exact Hnd. }
  assert (Hndsm : NoDup (index (concat ss))).
  { rewrite index_concat, Hidx. eapply sublist_NoDup; [apply concat_tails_sublist|].
    exact HndLL. }
  (* the column on the epoch *)
  assert (Hsel : map Kin.angVelSmoothed (get_group Kin.epochNum k out)
                 = map (fun x => series_get (Kin.label x) (concat ss))
                       (get_group Kin.epochNum k out)).
  { rewrite <- (select_map Kin.epochNum Kin.angVelSmoothed k out).
    rewrite <- (select_map Kin.epochNum
                  (fun x => series_get (Kin.label x) (concat ss)) k out).
    rewrite Hcol. unfold align. rewrite <- Hana.
    rewrite !map_map. reflexivity. }
  rewrite Hg in Hsel. rewrite Hsel. cbn [map]. f_equal.
  - apply series_get_notin. rewrite index_concat, Hidx.
    apply (@head_not_in_tails _ _ (Kin.label r) (map Kin.label rest)); [exact HndLL|].
    apply in_map_iff. exists (k, map phi (r :: rest)). split; [|exact Hin].
    cbn [snd map]. rewrite map_map. reflexivity.
  - rewrite <- (map_map Kin.label (fun l => series_get l (concat ss))), <- Hi'.
    apply series_get_incl; [exact Hndsm|].
    intros x Hx. apply in_concat. exists s. auto.
Qed.

Lemma angVelSmoothed_of_epoch_witness :
  exists r rest s,
    get_group Kin.epochNum 2 kin_jump_second = r :: rest
    /\ smooth_series_ML (map (fun x => (Kin.label x, Kin.angVel x)) rest)
                        SM_WINDOW_FOR_ANGVEL = Ok s
    /\ index s = map Kin.label rest
    /\ map Kin.angVelSmoothed (r :: rest) = NaN :: values s.
Proof.
  destruct (get_group Kin.epochNum 2 kin_jump_second) as [|r rest] eqn:Hg;
    [vm_compute in Hg; discriminate|].
  assert (Hk : kinematics2 norm_axis (map Kin.ana kin_jump_second) = Ok kin_jump_second)
    by (vm_compute; reflexivity).
  assert (Hnd : NoDup (map Ana.label (map Kin.ana kin_jump_second))).
  { rewrite map_map. apply sorted_labels_NoDup.
    apply (@pipeline_labels norm_axis raw_jump_second
             (rows_of (raw_truncate raw_jump_second))
             (rows_of (dur_y_x_filter
                         (ana_table (rows_of (raw_truncate raw_jump_second)))))
             kin_jump_second); vm_compute; reflexivity. }
  destruct (@angVelSmoothed_of_epoch norm_axis (map Kin.ana kin_jump_second)
              kin_jump_second 2%Z r rest Hk Hnd Hg) as [s [H1 [H2 H3]]].
  exists r, rest, s. auto.
Defined.
